(** * RoboReplay: the place-cell network of [robo_replay_model.py]

    A shallow embedding of the network functions of class [RoboReplay]
    and of the place-cell section of the loop body of [main], with the
    properties of the lattice topology, the weight table, the transfer
    function, the current update, the replay schedule and the global
    inhibition.

    Conventions of the embedding:
    - Python [int] indices are [Z]; [%] is [Z.modulo] (both floor).
    - Python and numpy floats are idealised as the real numbers [R];
      overflow, rounding and NaN are outside the model.
    - A numpy vector is a [list R], a 2-D array a [list (list R)];
      indexing follows numpy: a negative index counts from the end, an
      index outside [-n, n) raises [IndexError].
    - A call either returns a value or raises: [outcome]. *)

From Stdlib Require Import Reals Lra Lia ZArith List Bool.
Import ListNotations.

(** ** Python outcomes, ranges and numpy indexing *)

Module Py.

Inductive exn : Type :=
| IndexError.

Inductive outcome (A : Type) : Type :=
| Return (a : A)
| Raise (e : exn).

Arguments Return {A} a.
Arguments Raise {A} e.

Definition bind {A B : Type} (m : outcome A) (k : A -> outcome B) : outcome B :=
  match m with
  | Return a => k a
  | Raise e => Raise e
  end.

Definition returns {A : Type} (m : outcome A) : Prop :=
  exists a, m = Return a.

(** A value a function can hand back where an index is expected: an
    integer, or the exception class [IndexError] itself (the class
    object, not a raised exception). *)
Inductive pyobj : Type :=
| PyInt (z : Z)
| PyClass_IndexError.

(** [range(n)] and the test [i in range(lo, hi)]. *)
Definition range (n : Z) : list Z := map Z.of_nat (seq 0 (Z.to_nat n)).

Definition in_range (lo hi i : Z) : bool := (lo <=? i)%Z && (i <? hi)%Z.

(** [for x in xs: out.append(body x)], stopping at the first raise. *)
Fixpoint mapM {A B : Type} (body : A -> outcome B) (xs : list A) : outcome (list B) :=
  match xs with
  | [] => Return []
  | x :: xs' =>
      bind (body x) (fun y => bind (mapM body xs') (fun ys => Return (y :: ys)))
  end.

(** [for x in xs: s = body s x], stopping at the first raise. *)
Fixpoint foldM {A S : Type} (body : S -> A -> outcome S) (s : S) (xs : list A) : outcome S :=
  match xs with
  | [] => Return s
  | x :: xs' => bind (body s x) (fun s' => foldM body s' xs')
  end.

(** A loop that carries a variable [s] across iterations and fills one
    cell of a fresh array per iteration. *)
Fixpoint forM {A S B : Type} (body : S -> A -> outcome (S * B)) (s : S) (xs : list A)
  : outcome (list B) :=
  match xs with
  | [] => Return []
  | x :: xs' =>
      bind (body s x) (fun sb =>
        bind (forM body (fst sb) xs') (fun ys => Return (snd sb :: ys)))
  end.

Open Scope R_scope.

(** [np.zeros(n)], [np.ones(n)] and a scalar times a vector. *)
Definition np_zeros (n : Z) : list R := repeat 0 (Z.to_nat n).
Definition np_ones (n : Z) : list R := repeat 1 (Z.to_nat n).
Definition np_scale (v : list R) (c : R) : list R := map (fun x => x * c) v.

(** [v[k]] for an integer [k]. *)
Definition np_get (v : list R) (k : Z) : outcome R :=
  let n := Z.of_nat (length v) in
  if in_range 0 n k then Return (nth (Z.to_nat k) v 0)
  else if in_range (- n) 0 k then Return (nth (Z.to_nat (n + k)) v 0)
  else Raise IndexError.

(** [v[o]] for an arbitrary object: numpy refuses a class as an index
    with an [IndexError]. *)
Definition np_get_obj (v : list R) (o : pyobj) : outcome R :=
  match o with
  | PyInt k => np_get v k
  | PyClass_IndexError => Raise IndexError
  end.

(** [w[i, j]] on a 2-D array. *)
Definition np_get2 (w : list (list R)) (i j : Z) : outcome R :=
  let n := Z.of_nat (length w) in
  if in_range 0 n i then np_get (nth (Z.to_nat i) w []) j
  else if in_range (- n) 0 i then np_get (nth (Z.to_nat (n + i)) w []) j
  else Raise IndexError.

(** The builtin [sum(v)]: left to right from 0. *)
Definition py_sum (v : list R) : R := fold_left Rplus v 0.

(** [v[k] = x] for [k] inside the array. *)
Fixpoint upd {A : Type} (k : nat) (x : A) (v : list A) : list A :=
  match v, k with
  | [], _ => []
  | _ :: v', O => x :: v'
  | y :: v', S k' => y :: upd k' x v'
  end.

End Py.

Export Py.

Declare Scope py_scope.
Notation "x <- m ;; k" := (bind m (fun x => k))
  (at level 61, m at next level, right associativity) : py_scope.
Open Scope py_scope.
Open Scope R_scope.

(** ** Model parameters ([__init__]) *)

Definition network_size_pc : Z := 100.
Definition a : R := 1.
Definition epsilon : R := 2.
Definition w_inh : R := 0.1.
Definition delta_t : R := 0.01.

(** ** Lattice topology *)

Definition is_computable (i j : Z) : bool :=
  let no_cells_per_row := Z.sqrt network_size_pc in
  if ((i mod no_cells_per_row =? 0) && ((j =? 0) || (j =? 1) || (j =? 7)))%Z
  then false
  else if (in_range 0 no_cells_per_row i && ((j =? 1) || (j =? 2) || (j =? 3)))%Z
  then false
  else if (((i + 1) mod no_cells_per_row =? 0) && ((j =? 3) || (j =? 4) || (j =? 5)))%Z
  then false
  else if (in_range (network_size_pc - no_cells_per_row) network_size_pc i
           && ((j =? 5) || (j =? 6) || (j =? 7)))%Z
  then false
  else true.

Definition neighbour_index (i j : Z) : outcome pyobj :=
  let no_cells_per_row := Z.sqrt network_size_pc in
  (if j =? 0 then Return (PyInt (i - 1))
   else if j =? 1 then Return (PyInt (i - (no_cells_per_row + 1)))
   else if j =? 2 then Return (PyInt (i - no_cells_per_row))
   else if j =? 3 then Return (PyInt (i - (no_cells_per_row - 1)))
   else if j =? 4 then Return (PyInt (i + 1))
   else if j =? 5 then Return (PyInt (i + (no_cells_per_row + 1)))
   else if j =? 6 then Return (PyInt (i + no_cells_per_row))
   else if j =? 7 then Return (PyInt (i + (no_cells_per_row - 1)))
   else Return PyClass_IndexError)%Z.

(** ** Weight table *)

(** Row [i] of [np.zeros((N, 8))] after the inner loop: slot [j] is
    overwritten with [1.0] exactly when [is_computable(i, j)]. *)
Definition raw_row (i : Z) : list R :=
  map (fun j => if is_computable i j then 1 else 0) (range 8).

(** [row / sum(row) * 8]. *)
Definition normalise_row (row : list R) : list R :=
  map (fun w => w / py_sum row * 8) row.

Definition initialise_weights : list (list R) :=
  map (fun i => normalise_row (raw_row i)) (range 100).

(** ** Rate transfer *)

(** The body of the loop of [compute_rates] for one unit. *)
Definition rate_of_current (current : R) : R :=
  if Rlt_dec current epsilon then 0
  else Rmin (a * (current - epsilon)) 100.

Definition compute_rates (currents : list R) : outcome (list R) :=
  mapM (fun i => c <- np_get currents i ;; Return (rate_of_current c))
       (range network_size_pc).

(** ** Current update *)

Section UpdateCurrents.

Variables (currents : list R) (delta_t : R) (intrinsic_e : list R)
          (weights : list (list R)) (rates stp_d stp_f : list R)
          (I_inh : R) (I_place : list R) (replay : bool).

Definition tau_I : R := 0.05.

(** One pass of the loop over [j]: [sum_w_r_df] before and after. *)
Definition add_neighbour (i : Z) (sum_w_r_df : R) (j : Z) : outcome R :=
  if is_computable i j then
    neighbour <- neighbour_index i j ;;
    w <- np_get2 weights i j ;;
    r <- np_get_obj rates neighbour ;;
    d <- np_get_obj stp_d neighbour ;;
    f <- np_get_obj stp_f neighbour ;;
    Return (sum_w_r_df + w * r * d * f)
  else Return sum_w_r_df.

(** The [if replay:] block for unit [i]: the values of [g] and
    [sum_w_r_df] after it, [g] being the value before it. *)
Definition recurrent_block (g : R) (i : Z) : outcome (R * R) :=
  if replay then
    sum_w_r_df <- foldM (add_neighbour i) 0 (range 8) ;;
    e <- np_get intrinsic_e i ;;
    Return (e, sum_w_r_df)
  else Return (g, 0).

(** One pass of the loop over [i]: the new [g] and [currents_update[i]]. *)
Definition current_step (g : R) (i : Z) : outcome (R * R) :=
  gs <- recurrent_block g i ;;
  c <- np_get currents i ;;
  p <- np_get I_place i ;;
  Return (fst gs, c + (- c + fst gs * snd gs - I_inh + p) * delta_t / tau_I).

Definition update_currents : outcome (list R) :=
  forM current_step 0 (range network_size_pc).



End UpdateCurrents.

(** ** Intrinsic excitability, inhibition and short-term plasticity *)

Definition sigma_ss : R := 0.1.
Definition sigma_max : R := 4.

Definition intrinsic_e_step (e delta_t rate : R) : R :=
  let tau_e := 10 in
  let r_sigma := 10 in
  let beta := 1 in
  let sigmoid := (sigma_max - 1) / (1 + exp (- beta * (rate - r_sigma))) in
  let e' := ((sigma_ss - e) / tau_e + sigmoid) * delta_t + e in
  if Rgt_dec e' sigma_max then sigma_max else e'.

Definition update_intrinsic_e (intrinsic_e : list R) (delta_t : R) (rates : list R)
  : outcome (list R) :=
  mapM (fun i => r <- np_get rates i ;;
                 e <- np_get intrinsic_e i ;;
                 Return (intrinsic_e_step e delta_t r))
       (range network_size_pc).

Definition update_I_inh (I_inh delta_t w_inh : R) (rates : list R) : outcome R :=
  let tau_inh := 0.05 in
  sum_rates <- foldM (fun s i => r <- np_get rates i ;; Return (s + r)) 0
                     (range network_size_pc) ;;
  Return ((- I_inh / tau_inh + w_inh * sum_rates) * delta_t + I_inh).

Definition STP_D_step (D F delta_t rate : R) : R :=
  let tau_d := 1.5 in
  ((1.0 - D) / tau_d - rate * D * F) * delta_t + D.

Definition STP_F_step (D F delta_t rate : R) : R :=
  let tau_f := 1 in
  let U := 0.6 in
  ((U - F) / tau_f + U * (1 - F) * rate) * delta_t + F.

(** The out-of-bounds test at the end only prints; the arrays are
    returned as computed. *)
Definition update_STP (STP_D STP_F : list R) (delta_t : R) (rates : list R)
  : outcome (list R * list R) :=
  DF <- mapM (fun f => D <- np_get STP_D f ;;
                       r <- np_get rates f ;;
                       F <- np_get STP_F f ;;
                       Return (STP_D_step D F delta_t r, STP_F_step D F delta_t r))
             (range network_size_pc) ;;
  Return (map fst DF, map snd DF).

(** ** Place-field drive *)

(** [A[r][c] = x] on a 2-D array, for [r], [c] inside it. *)
Definition set2 (A : list (list R)) (r c : Z) (x : R) : list (list R) :=
  upd (Z.to_nat r) (upd (Z.to_nat c) x (nth (Z.to_nat r) A [])) A.

Definition np_zeros2 (n m : Z) : list (list R) := repeat (np_zeros m) (Z.to_nat n).

Definition np_dot2 (u v : R * R) : R := fst u * fst v + snd u * snd v.

Definition sub2 (u v : R * R) : R * R := (fst u - fst v, snd u - snd v).

(** The value written to [cells_activity[j][i]]. *)
Definition field_activity (C : R) (place : R * R) (i j : Z) : R :=
  let d := 0.1 in
  let no_cells_per_m := sqrt (IZR network_size_pc) / 2 in
  let place_cell_field_location :=
    (IZR i / no_cells_per_m + 0.1, IZR j / no_cells_per_m + 0.1) in
  C * exp (- 1.0 / (2.0 * d ^ 2) *
           np_dot2 (sub2 place place_cell_field_location)
                   (sub2 place place_cell_field_location)).

Definition compute_place_cell_activities
  (coord_x coord_y reward : R) (movement : bool) : list R :=
  let no_cell_it := Z.sqrt network_size_pc in
  let C := if movement || (if Req_dec_T reward 0 then false else true) then 50 else 0 in
  let cells_activity := np_zeros2 no_cell_it no_cell_it in
  let place := (coord_x + 1, coord_y + 1) in
  let cells_activity :=
    fold_left (fun A i =>
      fold_left (fun A j => set2 A j i (field_activity C place i j))
                (range no_cell_it) A)
      (range no_cell_it) cells_activity in
  concat cells_activity.

(** ** The loop body of [main]

    The fields of [self] the place-cell section reads and writes, with
    the two locals of [main] that survive an iteration.  The motor
    section at the head of the loop body (action cells, random walk,
    wheel commands) and the calls to [head_to_position] write none of
    them and are left out. *)

Record state : Type := mkState {
  t : R;
  rates : list R;
  currents : list R;
  intrinsic_e : list R;
  network_weights : list (list R);
  stp_d : list R;
  stp_f : list R;
  I_place : list R;
  I_inh : R;
  replay : bool;
  t_replay : R;          (* local of [main] *)
  coords_prev : R * R    (* local of [main] *)
}.

Definition intrinsic_e_reset : list R := np_scale (np_ones network_size_pc) 0.1.

(** The state [__init__] builds, with the locals as [main] sets them
    before the loop. *)
Definition initial_state : state :=
  {| t := 0;
     rates := np_zeros network_size_pc;
     currents := np_zeros network_size_pc;
     intrinsic_e := intrinsic_e_reset;
     network_weights := initialise_weights;
     stp_d := np_ones network_size_pc;
     stp_f := np_scale (np_ones network_size_pc) 0.6;
     I_place := np_zeros network_size_pc;
     I_inh := 0;
     replay := false;
     t_replay := 0;
     coords_prev := (-0.7, 0.0) |}.

(** [1 < t_replay < 1.1] and its three siblings. *)
Definition between (lo hi x : R) : bool :=
  if Rlt_dec lo x then (if Rlt_dec x hi then true else false) else false.

Definition in_pulse (t_replay : R) : bool :=
  between 1 1.1 t_replay || between 3 3.1 t_replay
  || between 5 5.1 t_replay || between 7 7.1 t_replay.

(** The local [I_place] of the replay branch: the vector passed to
    [update_currents] as external input. *)
Definition replay_input (t_replay : R) (self_I_place : list R) : list R :=
  if in_pulse t_replay then self_I_place else np_zeros network_size_pc.

(** One iteration of the loop, given what the callbacks last stored in
    [self.reward_val] and [self.body_pose[0:2]]. *)
Definition tick (st : state) (reward_val : Z) (body_pose : R * R) : outcome state :=
  let t' := t st + delta_t in
  let coords := body_pose in
  let movement_x := fst coords - fst (coords_prev st) in
  let movement_y := snd coords - snd (coords_prev st) in
  let movement :=
    if Rgt_dec movement_x 0.0 then true
    else if Rgt_dec movement_y 0.0 then true else false in
  let movement := true in
  let coords_prev' := coords in
  let rates_prev := rates st in
  let currents_prev := currents st in
  let intrinsic_e_prev := intrinsic_e st in
  let stp_d_prev := stp_d st in
  let stp_f_prev := stp_f st in
  let I_inh_prev := I_inh st in
  let network_weights_prev := network_weights st in
  if (reward_val =? 0)%Z then
    currents' <- update_currents currents_prev delta_t intrinsic_e_prev
                   network_weights_prev rates_prev stp_d_prev stp_f_prev
                   I_inh_prev (I_place st) false ;;
    rates' <- compute_rates currents' ;;
    intrinsic_e' <- update_intrinsic_e intrinsic_e_prev delta_t rates_prev ;;
    DF <- update_STP stp_d_prev stp_f_prev delta_t rates_prev ;;
    let I_place' :=
      compute_place_cell_activities (fst coords_prev') (snd coords_prev') 0 movement in
    I_inh' <- update_I_inh I_inh_prev delta_t w_inh rates_prev ;;
    Return {| t := t'; rates := rates'; currents := currents';
              intrinsic_e := intrinsic_e';
              network_weights := network_weights st;
              stp_d := fst DF; stp_f := snd DF;
              I_place := I_place'; I_inh := I_inh';
              replay := false; t_replay := 0; coords_prev := coords_prev' |}
  else
    let t_replay' := t_replay st + delta_t in
    let I_place_in := replay_input t_replay' (I_place st) in
    currents' <- update_currents currents_prev delta_t intrinsic_e_prev
                   network_weights_prev rates_prev stp_d_prev stp_f_prev
                   I_inh_prev I_place_in true ;;
    rates' <- compute_rates currents' ;;
    intrinsic_e' <- update_intrinsic_e intrinsic_e_prev delta_t rates_prev ;;
    DF <- update_STP stp_d_prev stp_f_prev delta_t rates_prev ;;
    I_inh' <- update_I_inh I_inh_prev delta_t w_inh rates_prev ;;
    let finished := if Rgt_dec t_replay' 9 then true else false in
    Return {| t := t'; rates := rates'; currents := currents';
              intrinsic_e := if finished then intrinsic_e_reset else intrinsic_e';
              network_weights := network_weights st;
              stp_d := fst DF; stp_f := snd DF;
              I_place := I_place st; I_inh := I_inh';
              replay := negb finished;
              t_replay := t_replay'; coords_prev := coords_prev' |}.

(** The loop run on a sequence of callback readings, one per iteration. *)
Definition run (st : state) (inputs : list (Z * (R * R))) : outcome state :=
  foldM (fun st inp => tick st (fst inp) (snd inp)) st inputs.

(** ** Definitions that follow the specification's wording *)

Module Spec.

(** [clamp(x, lo, hi)]. *)
Definition clamp (x lo hi : R) : R := Rmax lo (Rmin x hi).

(** The geometrically opposite direction slot. *)
Definition opposite (j : Z) : Z := ((j + 4) mod 8)%Z.

(** The place-field value the specification gives for the unit at grid
    row [r], column [c], with [cellsPerMeter = L / 2], width [d = 0.1]
    and offset [0.1]. *)
Definition place_field (C x y : R) (r c : Z) : R :=
  let d := 0.1 in
  let cellsPerMeter := 10 / 2 in
  let cx := IZR r / cellsPerMeter + 0.1 in
  let cy := IZR c / cellsPerMeter + 0.1 in
  C * exp (- ((x - cx) ^ 2 + (y - cy) ^ 2) / (2 * d ^ 2)).

(** The four re-injection windows of episode-elapsed time, closed on
    the right. *)
Definition in_windows (t_elapsed : R) : Prop :=
  1 < t_elapsed <= 1.1 \/ 3 < t_elapsed <= 3.1
  \/ 5 < t_elapsed <= 5.1 \/ 7 < t_elapsed <= 7.1.

End Spec.

(** ** Auxiliary definitions for the statements *)

Definition sized (v : list R) : Prop := length v = 100%nat.

Definition table_sized (w : list (list R)) : Prop :=
  length w = 100%nat /\ forall row, In row w -> length row = 8%nat.

(** The unit a valid slot leads to, and the entries the recurrent sum
    reads, as plain values. *)
Definition neighbour_unit (i j : Z) : Z :=
  match neighbour_index i j with
  | Return (PyInt k) => k
  | _ => 0%Z
  end.

Definition entry (v : list R) (i : Z) : R := nth (Z.to_nat i) v 0.

Definition weight (w : list (list R)) (i j : Z) : R :=
  nth (Z.to_nat j) (nth (Z.to_nat i) w []) 0.

Section RecurrentSum.

Variables (weights : list (list R)) (rates stp_d stp_f : list R).

Definition neighbour_term (i j : Z) : R :=
  weight weights i j * entry rates (neighbour_unit i j)
  * entry stp_d (neighbour_unit i j) * entry stp_f (neighbour_unit i j).

Definition recurrent_sum (i : Z) : R :=
  fold_left (fun s j => if is_computable i j then s + neighbour_term i j else s)
            (range 8) 0.

End RecurrentSum.

Definition valid_count (i : Z) : nat := length (filter (is_computable i) (range 8)).

(** The sum of row [i] of a table over the valid slots of [i]. *)
Definition valid_sum (w : list (list R)) (i : Z) : R :=
  fold_left (fun s j => if is_computable i j then s + weight w i j else s)
            (range 8) 0.

Definition amplitude (reward : R) (movement : bool) : R :=
  if movement || (if Req_dec_T reward 0 then false else true) then 50 else 0.

Definition well_formed (st : state) : Prop :=
  sized (rates st) /\ sized (currents st) /\ sized (intrinsic_e st)
  /\ table_sized (network_weights st)
  /\ sized (stp_d st) /\ sized (stp_f st) /\ sized (I_place st).

(** [sum_rates] at the end of the loop of [update_I_inh]. *)
Definition sum_rates (rates : list R) : R :=
  fold_left (fun s i => s + entry rates i) (range network_size_pc) 0.

(** The currents [update_currents] returns on a well-formed state. *)
Definition currents_after (st : state) (replaying : bool) (input : list R) : list R :=
  map (fun i => entry (currents st) i
                + (- entry (currents st) i
                   + (if replaying
                      then entry (intrinsic_e st) i
                           * recurrent_sum (network_weights st) (rates st)
                                           (stp_d st) (stp_f st) i
                      else 0)
                   - I_inh st + entry input i)
                  * delta_t / tau_I)
      (range network_size_pc).

(** The state [tick] returns on a well-formed state. *)
Definition next_state (st : state) (reward_val : Z) (body_pose : R * R) : state :=
  let replaying := negb (reward_val =? 0)%Z in
  let t_replay' := t_replay st + delta_t in
  let input :=
    if replaying then replay_input t_replay' (I_place st) else I_place st in
  let currents' := currents_after st replaying input in
  let finished := replaying && (if Rgt_dec t_replay' 9 then true else false) in
  {| t := t st + delta_t;
     rates := map rate_of_current currents';
     currents := currents';
     intrinsic_e :=
       if finished then intrinsic_e_reset
       else map (fun i => intrinsic_e_step (entry (intrinsic_e st) i) delta_t
                                           (entry (rates st) i))
                (range network_size_pc);
     network_weights := network_weights st;
     stp_d := map (fun i => STP_D_step (entry (stp_d st) i) (entry (stp_f st) i)
                                       delta_t (entry (rates st) i))
                  (range network_size_pc);
     stp_f := map (fun i => STP_F_step (entry (stp_d st) i) (entry (stp_f st) i)
                                       delta_t (entry (rates st) i))
                  (range network_size_pc);
     I_place :=
       if replaying then I_place st
       else compute_place_cell_activities (fst body_pose) (snd body_pose) 0 true;
     I_inh := (- I_inh st / 0.05 + w_inh * sum_rates (rates st)) * delta_t + I_inh st;
     replay := replaying && negb finished;
     t_replay := if replaying then t_replay' else 0;
     coords_prev := body_pose |}.

(** The state after [n] iterations with the reward held at 1 and the
    robot at rest at the origin. *)
Definition rewarded (n : nat) : list (Z * (R * R)) := repeat (1%Z, (0, 0)) n.


Definition nonneg_units (v : list R) : Prop :=
  forall i, (0 <= i < 100)%Z -> 0 <= entry v i.

Definition inhibition_invariant (st : state) : Prop :=
  well_formed st /\ nonneg_units (rates st) /\ 0 <= I_inh st.

Definition within (lo hi : R) (v : list R) : Prop :=
  forall i, (0 <= i < 100)%Z -> lo <= entry v i <= hi.

Definition dynamics_invariant (st : state) : Prop :=
  well_formed st
  /\ network_weights st = initialise_weights
  /\ within 0 100 (rates st)
  /\ within 0 1 (stp_d st)
  /\ within 0 1 (stp_f st)
  /\ within sigma_ss sigma_max (intrinsic_e st).

Definition neighbour_in_grid (i j : Z) : bool :=
  if is_computable i j then
    match neighbour_index i j with
    | Return (PyInt k) => in_range 0 network_size_pc k
    | _ => false
    end
  else true.

Definition edge_is_mutual (i j : Z) : bool :=
  if is_computable i j then
    match neighbour_index i j with
    | Return (PyInt k) =>
        is_computable k (Spec.opposite j)
        && match neighbour_index k (Spec.opposite j) with
           | Return (PyInt i') => (i' =? i)%Z
           | _ => false
           end
    | _ => false
    end
  else true.

(** ** Reward average, action cells and motor helpers *)

(** [1 / m] raises [ZeroDivisionError] when [m] is 0: [None]. *)
Definition update_reward_running_average (r_current reward m : R) : option R :=
  if Req_dec_T m 0 then None
  else Some ((1 - 1 / m) * r_current + 1 / m * reward).

(** The test of line 299 on the arrays [update_STP] is about to return;
    when it holds the function prints a warning and returns them all the
    same.  [max] and [min] are the builtins on a non-empty array. *)
Definition py_max (v : list R) : R := fold_left Rmax (tl v) (hd 0 v).
Definition py_min (v : list R) : R := fold_left Rmin (tl v) (hd 0 v).

Definition STP_out_of_bounds (STP_D_next STP_F_next : list R) : bool :=
  (if Rgt_dec (py_max STP_D_next) 1 then true else false)
  || (if Rlt_dec (py_min STP_D_next) 0 then true else false)
  || (if Rgt_dec (py_max STP_F_next) 1 then true else false)
  || (if Rlt_dec (py_min STP_F_next) 0 then true else false).

(** [np.dot] of two vectors of one length. *)
Definition np_dot (u v : list R) : R :=
  fold_left (fun s p => s + fst p * snd p) (combine u v) 0.

(** [np.dot(weights_pc_ac, place_cell_rates)] of a matrix and a vector
    raises [ValueError] unless every row is as long as the vector:
    [None]. *)
Definition ac_outputs (weights_pc_ac : list (list R)) (place_cell_rates : list R)
  : option (list R) :=
  let c1 := 1 in
  let c2 := 1 in
  if forallb (fun row => Nat.eqb (length row) (length place_cell_rates)) weights_pc_ac
  then Some (map (fun row =>
                    1 / (1 + exp (- c1 * (np_dot row place_cell_rates - c2))))
                 weights_pc_ac)
  else None.

(** The array [(e, n, w, s)]. *)
Definition theta_to_action_cell (theta : R) : R * R * R * R :=
  let north_south := sin theta in
  let east_west := cos theta in
  let n := if Rge_dec north_south 0 then north_south else 0 in
  let s := if Rge_dec north_south 0 then 0 else - north_south in
  let e := if Rge_dec east_west 0 then east_west else 0 in
  let w := if Rge_dec east_west 0 then 0 else - east_west in
  (e, n, w, s).

(** With [east_west] equal to 0 numpy divides to [inf] or [nan]; that
    case is outside the model: [None]. *)
Definition action_cell_to_theta (action_cells : R * R * R * R) : option R :=
  let '(e, n, w, s) := action_cells in
  let north_south := n - s in
  let east_west := e - w in
  if Req_dec_T east_west 0 then None
  else
    let target_theta := atan (north_south / east_west) in
    if Rge_dec target_theta 0 then Some target_theta
    else Some (target_theta + 2 * PI).

(** [self.body_pose] after the callback. *)
Definition callback_body_pose (msg_x msg_y msg_theta : R) : R * R * R :=
  if Rlt_dec msg_theta 0 then (msg_x, msg_y, msg_theta + 2 * PI)
  else (msg_x, msg_y, msg_theta).

(** What a controller call does to the wheels: the wall-avoidance
    manoeuvre, or one published twist. *)
Inductive wheels_action : Type :=
| Avoid_wall
| Publish (linear_x angular_z : R).

(** The three-way choice of [omega] from an angular difference, as it is
    written in [miro_controller] and twice in [head_to_position]. *)
Definition omega_of (A diff : R) : R :=
  if Rlt_dec (Rabs diff) PI then A * diff
  else if Rgt_dec diff 0 then A * (diff - 2 * PI)
  else A * (diff + 2 * PI).

(** The action on the wheels and the new value of [self.target_theta],
    given [self.sonar_val], [self.target_theta] and [self.body_pose[2]]. *)
Definition miro_controller
  (sonar_val self_target_theta body_theta : R) (target_theta current_theta : R)
  : wheels_action * R :=
  if Rlt_dec sonar_val 0.03 then (Avoid_wall, body_theta)
  else
    let A := 1 in
    let vel := 0.2 in
    let diff := target_theta - current_theta in
    (Publish vel (omega_of A diff), self_target_theta).

(** Python's [x % m] on floats, for a positive [m]. *)
Definition py_mod (x m : R) : R := x - m * IZR (Int_part (x / m)).

(** The new [self.t_last_angle_change] and the angle returned, [rand]
    being the value [np.random.rand()] yields if it is called. *)
Definition random_walk
  (t t_last_angle_change current_theta current_target_theta rand : R) : R * R :=
  if Rgt_dec (t - t_last_angle_change) 2
  then (t, py_mod (current_theta + 2 * rand - 1) (2 * PI))
  else (t_last_angle_change, current_target_theta).

(** One pass of the first loop of [head_to_position], from the pose read
    at its line 449: the distance, and the [vel] and [omega] published. *)
Definition theta_miro_home (diff_x diff_y : R) : R :=
  let theta := atan (diff_y / diff_x) in
  if (if Rgt_dec diff_x 0 then (if Rlt_dec diff_y 0 then true else false) else false)
  then theta + 2 * PI
  else if Rlt_dec diff_x 0 then theta + PI
  else theta.

Definition homing_pass (target_pose current_pose : R * R * R) : R * R * R :=
  let A := 1 in
  let vel_max := 0.2 in
  let '(target_x, target_y, _) := target_pose in
  let '(current_x, current_y, current_theta) := current_pose in
  let diff_x := target_x - current_x in
  let diff_y := target_y - current_y in
  let diff_x := if Req_dec_T diff_x 0 then diff_x + 0.000001 else diff_x in
  let distance_from_home := sqrt (diff_x ^ 2 + diff_y ^ 2) in
  let theta_diff := theta_miro_home diff_x diff_y - current_theta in
  let omega := omega_of A theta_diff in
  let vel := Rmin distance_from_home vel_max in
  (distance_from_home, vel, omega).

(** Grid coordinates of a unit, and lattice adjacency (a king's move). *)
Definition row_of (i : Z) : Z := (i / 10)%Z.
Definition col_of (i : Z) : Z := (i mod 10)%Z.

Definition adjacent (i k : Z) : bool :=
  in_range 0 100 k && negb (i =? k)%Z
  && (Z.abs (row_of i - row_of k) <=? 1)%Z
  && (Z.abs (col_of i - col_of k) <=? 1)%Z.

(** The valid slots of [i] that lead to [k]. *)
Definition slots_to (i k : Z) : list Z :=
  filter (fun j => is_computable i j && (neighbour_unit i j =? k)%Z) (range 8).

(** Decimal literals are rationals injected into [R]; [field] wants
    them as quotients of integers. *)
Ltac real_field :=
  unfold Q2R; cbn [QArith_base.Qnum QArith_base.Qden]; field.

(** * Properties *)

(** ** Ranges, indexing and loops *)

Lemma in_range_iff lo hi i :
  in_range lo hi i = true <-> (lo <= i < hi)%Z.
Proof.
  unfold in_range. rewrite andb_true_iff, Z.leb_le, Z.ltb_lt. tauto.
Qed.

Lemma range_In n i : In i (range n) <-> (0 <= i < n)%Z.
Proof.
  unfold range. rewrite in_map_iff. split.
  - intros [k [<- Hk]]. apply in_seq in Hk. lia.
  - intros Hi. exists (Z.to_nat i). split; [lia|]. apply in_seq. lia.
Qed.

Lemma range_length n : length (range n) = Z.to_nat n.
Proof. unfold range. now rewrite length_map, length_seq. Qed.

Lemma range_forallb n (f : Z -> bool) :
  forallb f (range n) = true -> forall i, (0 <= i < n)%Z -> f i = true.
Proof.
  intros H i Hi. rewrite forallb_forall in H. apply H, range_In, Hi.
Qed.

Lemma np_get_inside v k :
  (0 <= k < Z.of_nat (length v))%Z ->
  np_get v k = Return (nth (Z.to_nat k) v 0).
Proof.
  intros Hk. unfold np_get.
  now rewrite (proj2 (in_range_iff _ _ _) Hk).
Qed.

Lemma np_get2_inside w i j :
  (0 <= i < Z.of_nat (length w))%Z ->
  np_get2 w i j = np_get (nth (Z.to_nat i) w []) j.
Proof.
  intros Hi. unfold np_get2.
  now rewrite (proj2 (in_range_iff _ _ _) Hi).
Qed.

Lemma mapM_map {A B : Type} (body : A -> outcome B) (g : A -> B) xs :
  (forall x, In x xs -> body x = Return (g x)) ->
  mapM body xs = Return (map g xs).
Proof.
  induction xs as [|x xs IH]; intros H; simpl; [reflexivity|].
  rewrite (H x (or_introl eq_refl)). simpl.
  rewrite IH by (intros y Hy; apply H; now right). reflexivity.
Qed.

Lemma nth_range n k d :
  (0 <= k < n)%Z -> nth (Z.to_nat k) (range n) d = k.
Proof.
  intros Hk. unfold range.
  rewrite (nth_indep _ d (Z.of_nat 0)) by (rewrite length_map, length_seq; lia).
  rewrite map_nth, seq_nth by lia. lia.
Qed.

Lemma foldM_fold {A S : Type} (body : S -> A -> outcome S) (h : S -> A -> S) xs :
  (forall s x, In x xs -> body s x = Return (h s x)) ->
  forall s, foldM body s xs = Return (fold_left h xs s).
Proof.
  induction xs as [|x xs IH]; intros H s; simpl; [reflexivity|].
  rewrite (H s x (or_introl eq_refl)). simpl.
  apply IH. intros s' y Hy. apply H. now right.
Qed.

Lemma forM_map {A S B : Type} (P : S -> Prop)
      (body : S -> A -> outcome (S * B)) (h : A -> B) xs :
  (forall s x, P s -> In x xs ->
     exists s', body s x = Return (s', h x) /\ P s') ->
  forall s, P s -> forM body s xs = Return (map h xs).
Proof.
  induction xs as [|x xs IH]; intros H s Hs; simpl; [reflexivity|].
  destruct (H s x Hs (or_introl eq_refl)) as [s' [-> Hs']]. simpl.
  rewrite (IH (fun s0 y H0 Hy => H s0 y H0 (or_intror Hy)) s' Hs').
  reflexivity.
Qed.

Lemma map_nth_range {B : Type} (f : R -> B) (v : list R) :
  map (fun i => f (nth (Z.to_nat i) v 0)) (range (Z.of_nat (length v))) = map f v.
Proof.
  unfold range. rewrite Nat2Z.id, map_map.
  apply nth_ext with (d := f 0) (d' := f 0).
  - now rewrite !length_map, length_seq.
  - intros k Hk. rewrite length_map, length_seq in Hk.
    rewrite (nth_indep _ (f 0) ((fun i => f (nth (Z.to_nat (Z.of_nat i)) v 0)) O))
      by (rewrite length_map, length_seq; lia).
    rewrite (map_nth (fun i => f (nth (Z.to_nat (Z.of_nat i)) v 0)) (seq 0 (length v)) O k).
    rewrite seq_nth by lia. simpl. rewrite Nat2Z.id.
    now rewrite (map_nth f v 0 k).
Qed.

Lemma sized_get v i :
  sized v -> (0 <= i < 100)%Z -> np_get v i = Return (nth (Z.to_nat i) v 0).
Proof.
  intros Hv Hi. apply np_get_inside. unfold sized in Hv. lia.
Qed.

Lemma sized_map_range {B : Type} (f : R -> B) (v : list R) :
  sized v ->
  map (fun i => f (nth (Z.to_nat i) v 0)) (range network_size_pc) = map f v.
Proof.
  intros Hv. rewrite <- (map_nth_range f v). unfold sized in Hv.
  now rewrite Hv.
Qed.

Lemma nth_map_range {B : Type} (f : Z -> B) n i d :
  (0 <= i < n)%Z -> nth (Z.to_nat i) (map f (range n)) d = f i.
Proof.
  intros Hi.
  rewrite (nth_indep _ d (f 0%Z)) by (rewrite length_map, range_length; lia).
  rewrite map_nth. now rewrite nth_range.
Qed.

Lemma entry_map_units (f : Z -> R) i :
  (0 <= i < 100)%Z -> entry (map f (range network_size_pc)) i = f i.
Proof. intros Hi. unfold entry. now apply nth_map_range. Qed.

Lemma entry_repeat_nonneg x n k : 0 <= x -> 0 <= entry (repeat x n) k.
Proof.
  intros Hx. unfold entry.
  destruct (nth_in_or_default (Z.to_nat k) (repeat x n) 0) as [Hin | ->]; [|lra].
  apply repeat_spec in Hin. now rewrite Hin.
Qed.

Lemma entry_repeat x n k :
  (0 <= k < Z.of_nat n)%Z -> entry (repeat x n) k = x.
Proof.
  intros Hk. unfold entry. apply nth_repeat_lt. lia.
Qed.

Lemma sum_indicator (c : Z -> bool) xs s :
  fold_left Rplus (map (fun j => if c j then 1 else 0) xs) s
  = s + INR (length (filter c xs)).
Proof.
  revert s. induction xs as [|x xs IH]; intros s; simpl; [lra|].
  rewrite IH. destruct (c x).
  - change (length (x :: filter c xs)) with (S (length (filter c xs))).
    rewrite S_INR. lra.
  - lra.
Qed.

Lemma sum_of_valid (c : Z -> bool) (f : Z -> R) (x : R) xs s :
  (forall j, In j xs -> c j = true -> f j = x) ->
  fold_left (fun s j => if c j then s + f j else s) xs s
  = s + INR (length (filter c xs)) * x.
Proof.
  revert s. induction xs as [|y xs IH]; intros s H; simpl; [lra|].
  rewrite IH by (intros j Hj; apply H; now right).
  destruct (c y) eqn:Hy.
  - change (length (y :: filter c xs)) with (S (length (filter c xs))).
    rewrite S_INR, (H y (or_introl eq_refl) Hy). lra.
  - lra.
Qed.

Lemma fold_valid_lower (c : Z -> bool) (f : Z -> R) xs s :
  (forall j, In j xs -> c j = true -> 0 <= f j) ->
  s <= fold_left (fun s j => if c j then s + f j else s) xs s.
Proof.
  revert s. induction xs as [|y xs IH]; intros s H; simpl; [lra|].
  assert (Hxs : forall j, In j xs -> c j = true -> 0 <= f j)
    by (intros j Hj; apply H; now right).
  destruct (c y) eqn:Hy.
  - pose proof (H y (or_introl eq_refl) Hy). pose proof (IH (s + f y) Hxs). lra.
  - now apply IH.
Qed.


Lemma map_const_range (f : Z -> R) n x :
  (forall k, f k = x) -> map f (range n) = repeat x (Z.to_nat n).
Proof.
  intros H. unfold range. rewrite map_map.
  rewrite (map_ext _ (fun _ => x)) by (intros; apply H).
  rewrite map_const. now rewrite length_seq.
Qed.

Lemma sized_map_units (f : Z -> R) : sized (map f (range network_size_pc)).
Proof. unfold sized. now rewrite length_map, range_length. Qed.

Lemma sized_map (f : R -> R) v : sized v -> sized (map f v).
Proof. unfold sized. now rewrite length_map. Qed.

(** ** Lattice topology *)

Lemma all_neighbours_in_grid :
  forallb (fun i => forallb (neighbour_in_grid i) (range 8)) (range 100) = true.
Proof. vm_compute. reflexivity. Qed.

Lemma all_edges_mutual :
  forallb (fun i => forallb (edge_is_mutual i) (range 8)) (range 100) = true.
Proof. vm_compute. reflexivity. Qed.

Lemma neighbour_of_valid_slot i j :
  (0 <= i < 100)%Z -> (0 <= j < 8)%Z -> is_computable i j = true ->
  exists k, neighbour_index i j = Return (PyInt k) /\ (0 <= k < 100)%Z.
Proof.
  intros Hi Hj Hc.
  pose proof (range_forallb _ _ (range_forallb _ _ all_neighbours_in_grid i Hi) j Hj) as H.
  unfold neighbour_in_grid in H. rewrite Hc in H.
  destruct (neighbour_index i j) as [[k|]|]; try discriminate.
  exists k. split; [reflexivity|]. now apply in_range_iff in H.
Qed.

(** C5. Topology symmetry: a valid slot [j] of unit [i] leads to a unit
    [k] for which the opposite slot [(j + 4) mod 8] is valid and leads
    back to [i]; no edge goes one way only. *)
Theorem topology_symmetry i j :
  (0 <= i < 100)%Z -> (0 <= j < 8)%Z -> is_computable i j = true ->
  exists k,
    neighbour_index i j = Return (PyInt k)
    /\ is_computable k (Spec.opposite j) = true
    /\ neighbour_index k (Spec.opposite j) = Return (PyInt i).
Proof.
  intros Hi Hj Hc.
  pose proof (range_forallb _ _ (range_forallb _ _ all_edges_mutual i Hi) j Hj) as H.
  unfold edge_is_mutual in H. rewrite Hc in H.
  destruct (neighbour_index i j) as [[k|]|]; try discriminate.
  apply andb_true_iff in H. destruct H as [Hk Hback].
  exists k. repeat split; [assumption|].
  destruct (neighbour_index k (Spec.opposite j)) as [[i'|]|]; try discriminate.
  apply Z.eqb_eq in Hback. now subst.
Qed.

Lemma topology_symmetry_witness :
  exists k,
    neighbour_index 0 4 = Return (PyInt k)
    /\ is_computable k (Spec.opposite 4) = true
    /\ neighbour_index k (Spec.opposite 4) = Return (PyInt 0%Z).
Proof. apply (topology_symmetry 0 4); [lia | lia | reflexivity]. Defined.

(** C8, as the code has it: for a slot outside 0..7 [neighbour_index]
    raises nothing; it returns the class [IndexError] as an ordinary
    value. *)
Theorem neighbour_index_unknown_slot i j :
  (j < 0 \/ 7 < j)%Z -> neighbour_index i j = Return PyClass_IndexError.
Proof.
  intros Hj. unfold neighbour_index.
  repeat match goal with
         | |- context [(j =? ?c)%Z] =>
             destruct (Z.eqb_spec j c); [lia|]
         end.
  reflexivity.
Qed.

Lemma neighbour_index_unknown_slot_witness :
  neighbour_index 0 8 = Return PyClass_IndexError.
Proof. apply neighbour_index_unknown_slot. right. lia. Defined.

(** ** Rate transfer *)

Lemma compute_rates_sized currents :
  sized currents ->
  compute_rates currents = Return (map rate_of_current currents).
Proof.
  intros Hc. unfold compute_rates.
  rewrite (mapM_map _ (fun i => rate_of_current (nth (Z.to_nat i) currents 0))).
  - now rewrite sized_map_range.
  - intros i Hi. apply range_In in Hi. now rewrite sized_get.
Qed.

Lemma rate_of_current_clamp c :
  rate_of_current c = Spec.clamp (a * (c - epsilon)) 0 100.
Proof.
  unfold rate_of_current, Spec.clamp, a, epsilon, Rmax, Rmin.
  destruct (Rlt_dec c 2); destruct (Rle_dec (1 * (c - 2)) 100);
    repeat match goal with |- context [Rle_dec ?x ?y] => destruct (Rle_dec x y) end;
    lra.
Qed.

Lemma rate_of_current_bounds c : 0 <= rate_of_current c <= 100.
Proof.
  unfold rate_of_current, a, epsilon, Rmin.
  destruct (Rlt_dec c 2); [lra|].
  destruct (Rle_dec (1 * (c - 2)) 100); lra.
Qed.

Lemma rate_of_current_monotone c1 c2 :
  c1 <= c2 -> rate_of_current c1 <= rate_of_current c2.
Proof.
  intros H. unfold rate_of_current, a, epsilon, Rmin.
  destruct (Rlt_dec c1 2); destruct (Rlt_dec c2 2);
    repeat match goal with |- context [Rle_dec ?x ?y] => destruct (Rle_dec x y) end;
    lra.
Qed.

(** C4. The rate transfer is [clamp(a * (current - epsilon), 0, 100)]
    with [a = 1], [epsilon = 2]: 48 at 50, 0 at 1 and below the
    threshold, 100 at 300, always inside [0, 100], nondecreasing; and
    [compute_rates] applies it to each of the 100 currents. *)
Theorem rate_transfer_clamp :
  (forall c, rate_of_current c = Spec.clamp (a * (c - epsilon)) 0 100)
  /\ rate_of_current 50 = 48
  /\ rate_of_current 1 = 0
  /\ (forall c, c < epsilon -> rate_of_current c = 0)
  /\ rate_of_current 300 = 100
  /\ (forall c, 0 <= rate_of_current c <= 100)
  /\ (forall c1 c2, c1 <= c2 -> rate_of_current c1 <= rate_of_current c2)
  /\ (forall currents, sized currents ->
        compute_rates currents
        = Return (map (fun c => Spec.clamp (a * (c - epsilon)) 0 100) currents)).
Proof.
  repeat split.
  - apply rate_of_current_clamp.
  - unfold rate_of_current, a, epsilon, Rmin.
    destruct (Rlt_dec 50 2); [lra|]. destruct (Rle_dec (1 * (50 - 2)) 100); lra.
  - unfold rate_of_current, epsilon. destruct (Rlt_dec 1 2); lra.
  - intros c Hc. unfold rate_of_current. destruct (Rlt_dec c epsilon); [reflexivity|lra].
  - unfold rate_of_current, a, epsilon, Rmin.
    destruct (Rlt_dec 300 2); [lra|]. destruct (Rle_dec (1 * (300 - 2)) 100); lra.
  - apply rate_of_current_bounds.
  - apply rate_of_current_bounds.
  - apply rate_of_current_monotone.
  - intros currents Hc. rewrite compute_rates_sized by assumption.
    f_equal. apply map_ext. intros c. apply rate_of_current_clamp.
Qed.

Lemma rate_transfer_clamp_witness :
  rate_of_current (-3) = 0
  /\ rate_of_current 10 <= rate_of_current 20
  /\ compute_rates (repeat 50 100)
     = Return (map (fun c => Spec.clamp (a * (c - epsilon)) 0 100) (repeat 50 100)).
Proof.
  destruct rate_transfer_clamp as (_ & _ & _ & Hlow & _ & _ & Hmono & Harr).
  repeat split.
  - apply Hlow. unfold epsilon. lra.
  - apply Hmono. lra.
  - apply Harr. reflexivity.
Defined.



(** ** Current update *)

Section RecurrentSumReads.

Variables (weights : list (list R)) (rates stp_d stp_f : list R).

Hypothesis Hw : table_sized weights.
Hypothesis Hr : sized rates.
Hypothesis Hd : sized stp_d.
Hypothesis Hf : sized stp_f.

Lemma weight_get i j :
  (0 <= i < 100)%Z -> (0 <= j < 8)%Z ->
  np_get2 weights i j = Return (weight weights i j).
Proof.
  intros Hi Hj. destruct Hw as [Hlen Hrows].
  rewrite np_get2_inside by lia.
  apply np_get_inside. rewrite (Hrows (nth (Z.to_nat i) weights [])); [lia|].
  apply nth_In. lia.
Qed.

Lemma add_neighbour_sized i s j :
  (0 <= i < 100)%Z -> (0 <= j < 8)%Z ->
  add_neighbour weights rates stp_d stp_f i s j
  = Return (if is_computable i j then s + neighbour_term weights rates stp_d stp_f i j else s).
Proof.
  intros Hi Hj. unfold add_neighbour, neighbour_term, neighbour_unit, entry.
  destruct (is_computable i j) eqn:Hc; [|reflexivity].
  destruct (neighbour_of_valid_slot i j Hi Hj Hc) as [k [-> Hk]]. simpl.
  rewrite weight_get by assumption. simpl.
  rewrite !sized_get by assumption. reflexivity.
Qed.

Lemma recurrent_block_replay intrinsic_e g i :
  sized intrinsic_e -> (0 <= i < 100)%Z ->
  recurrent_block intrinsic_e weights rates stp_d stp_f true g i
  = Return (entry intrinsic_e i, recurrent_sum weights rates stp_d stp_f i).
Proof.
  intros He Hi. unfold recurrent_block.
  rewrite (foldM_fold _
             (fun s j => if is_computable i j then s + neighbour_term weights rates stp_d stp_f i j else s)).
  - simpl. rewrite sized_get by assumption. reflexivity.
  - intros s j Hj. apply range_In in Hj. now apply add_neighbour_sized.
Qed.

End RecurrentSumReads.


Lemma update_currents_explore
      currents dt intrinsic_e weights rates stp_d stp_f I_inh I_place :
  sized currents -> sized I_place ->
  update_currents currents dt intrinsic_e weights rates stp_d stp_f I_inh I_place false
  = Return (map (fun i => entry currents i
                          + (- entry currents i + 0 - I_inh + entry I_place i)
                            * dt / tau_I)
                (range network_size_pc)).
Proof.
  intros Hc Hp. unfold update_currents.
  apply (forM_map (fun g => g = 0)); [|reflexivity].
  intros g i -> Hi. apply range_In in Hi. exists 0. split; [|reflexivity].
  unfold current_step, recurrent_block, entry. simpl.
  rewrite !sized_get by assumption. simpl. now rewrite Rmult_0_l.
Qed.


Lemma update_currents_replay
      currents dt intrinsic_e weights rates stp_d stp_f I_inh I_place :
  table_sized weights -> sized rates -> sized stp_d -> sized stp_f ->
  sized intrinsic_e -> sized currents -> sized I_place ->
  update_currents currents dt intrinsic_e weights rates stp_d stp_f I_inh I_place true
  = Return (map (fun i => entry currents i
                          + (- entry currents i
                             + entry intrinsic_e i
                               * recurrent_sum weights rates stp_d stp_f i
                             - I_inh + entry I_place i)
                            * dt / tau_I)
                (range network_size_pc)).
Proof.
  intros Hw Hr Hd Hf He Hc Hp. unfold update_currents.
  apply (forM_map (fun _ => True)); [|exact I].
  intros g i _ Hi. apply range_In in Hi.
  exists (entry intrinsic_e i). split; [|exact I].
  unfold current_step. rewrite recurrent_block_replay by assumption. simpl.
  rewrite !sized_get by assumption. reflexivity.
Qed.


(** ** Weight table *)

Lemma raw_row_sum i : py_sum (raw_row i) = INR (valid_count i).
Proof.
  unfold py_sum, raw_row, valid_count. rewrite sum_indicator. lra.
Qed.

Lemma valid_count_range :
  forallb (fun i => (3 <=? valid_count i)%nat && (valid_count i <=? 8)%nat)
          (range 100) = true.
Proof. vm_compute. reflexivity. Qed.

Lemma valid_count_bounds i :
  (0 <= i < 100)%Z -> (3 <= valid_count i <= 8)%nat.
Proof.
  intros Hi. pose proof (range_forallb _ _ valid_count_range i Hi) as H.
  apply andb_true_iff in H. destruct H as [H3 H8].
  apply Nat.leb_le in H3. apply Nat.leb_le in H8. lia.
Qed.

Lemma valid_count_pos i : (0 <= i < 100)%Z -> 0 < INR (valid_count i).
Proof.
  intros Hi. apply lt_0_INR. pose proof (valid_count_bounds i Hi). lia.
Qed.

Lemma initialise_weights_sized : table_sized initialise_weights.
Proof.
  split.
  - unfold initialise_weights. now rewrite length_map, range_length.
  - intros row Hrow. unfold initialise_weights in Hrow.
    apply in_map_iff in Hrow. destruct Hrow as [i [<- _]].
    unfold normalise_row, raw_row. now rewrite !length_map, range_length.
Qed.

Lemma initialise_weights_entry i j :
  (0 <= i < 100)%Z -> (0 <= j < 8)%Z ->
  weight initialise_weights i j
  = (if is_computable i j then 1 else 0) / INR (valid_count i) * 8.
Proof.
  intros Hi Hj. unfold weight, initialise_weights.
  rewrite (nth_map_range (fun i => normalise_row (raw_row i)) 100 i [] Hi).
  unfold normalise_row. rewrite raw_row_sum. unfold raw_row.
  rewrite map_map.
  now rewrite (nth_map_range
                 (fun j => (if is_computable i j then 1 else 0) / INR (valid_count i) * 8)
                 8 j 0 Hj).
Qed.

Lemma initialise_weights_valid_sum i :
  (0 <= i < 100)%Z -> valid_sum initialise_weights i = 8.
Proof.
  intros Hi. unfold valid_sum.
  rewrite (sum_of_valid (is_computable i) (weight initialise_weights i)
                        (8 / INR (valid_count i))).
  - fold (valid_count i). pose proof (valid_count_pos i Hi). field. lra.
  - intros j Hj Hc. apply range_In in Hj.
    rewrite initialise_weights_entry, Hc by assumption.
    pose proof (valid_count_pos i Hi). field. lra.
Qed.


(** C6. In the table built by [initialise_weights], row [i] gives the
    same positive weight [8 / n] to each of the [n] valid slots of [i]
    and 0 to the others, so the row sums to 8 over the valid slots; a
    unit with fewer valid neighbours (corner 3, edge 5, interior 8) has
    the larger weight per connection. *)
Theorem initialise_weights_row i :
  (0 <= i < 100)%Z ->
  (forall j, (0 <= j < 8)%Z -> is_computable i j = true ->
     weight initialise_weights i j = 8 / INR (valid_count i)
     /\ 0 < weight initialise_weights i j)
  /\ (forall j, (0 <= j < 8)%Z -> is_computable i j = false ->
        weight initialise_weights i j = 0)
  /\ valid_sum initialise_weights i = 8
  /\ (3 <= valid_count i <= 8)%nat
  /\ (forall i' j j', (0 <= i' < 100)%Z -> (0 <= j < 8)%Z -> (0 <= j' < 8)%Z ->
        is_computable i j = true -> is_computable i' j' = true ->
        (valid_count i < valid_count i')%nat ->
        weight initialise_weights i' j' < weight initialise_weights i j)
  /\ valid_count 0 = 3%nat /\ valid_count 5 = 5%nat /\ valid_count 55 = 8%nat.
Proof.
  intros Hi. pose proof (valid_count_pos i Hi) as Hn.
  assert (Hvalid : forall i0 j, (0 <= i0 < 100)%Z -> (0 <= j < 8)%Z ->
            is_computable i0 j = true ->
            weight initialise_weights i0 j = 8 / INR (valid_count i0)).
  { intros i0 j Hi0 Hj Hc. rewrite initialise_weights_entry, Hc by assumption.
    pose proof (valid_count_pos i0 Hi0). field. lra. }
  repeat split.
  - now apply Hvalid.
  - rewrite Hvalid by assumption. apply Rdiv_lt_0_compat; lra.
  - intros j Hj Hc. rewrite initialise_weights_entry, Hc by assumption.
    field. lra.
  - now apply initialise_weights_valid_sum.
  - apply (valid_count_bounds i Hi).
  - apply (valid_count_bounds i Hi).
  - intros i' j j' Hi' Hj Hj' Hc Hc' Hlt.
    rewrite !Hvalid by assumption.
    pose proof (valid_count_pos i' Hi') as Hn'.
    apply lt_INR in Hlt.
    unfold Rdiv. apply Rmult_lt_compat_l; [lra|].
    apply Rinv_lt_contravar; [nra | assumption].
Qed.

Lemma initialise_weights_row_witness :
  weight initialise_weights 0 4 = 8 / INR (valid_count 0)
  /\ weight initialise_weights 0 0 = 0
  /\ valid_sum initialise_weights 0 = 8
  /\ weight initialise_weights 55 4 < weight initialise_weights 0 4.
Proof.
  destruct (initialise_weights_row 0 ltac:(lia))
    as (Hv & Hz & Hs & _ & Hlarger & _).
  repeat split.
  - apply (Hv 4%Z); [lia | reflexivity].
  - apply (Hz 0%Z); [lia | reflexivity].
  - exact Hs.
  - apply (Hlarger 55%Z 4%Z 4%Z); try lia; try reflexivity.
    vm_compute. lia.
Defined.

(** ** Place-field drive *)

(** The nested loop writes [F i j] to row [j], column [i]; flattened
    row by row, cell [k] holds [F (k mod 10) (k / 10)]. *)
Lemma fill_cells_activity (F : Z -> Z -> R) :
  concat (fold_left (fun A i =>
                       fold_left (fun A j => set2 A j i (F i j)) (range 10) A)
                    (range 10) (np_zeros2 10 10))
  = map (fun k => F (k mod 10)%Z (k / 10)%Z) (range 100).
Proof. vm_compute. reflexivity. Qed.

Lemma compute_place_cell_activities_cells coord_x coord_y reward movement :
  compute_place_cell_activities coord_x coord_y reward movement
  = map (fun k => field_activity (amplitude reward movement)
                                 (coord_x + 1, coord_y + 1) (k mod 10)%Z (k / 10)%Z)
        (range 100).
Proof.
  unfold compute_place_cell_activities.
  change (Z.sqrt network_size_pc) with 10%Z.
  apply (fill_cells_activity
           (field_activity (amplitude reward movement) (coord_x + 1, coord_y + 1))).
Qed.

Lemma cells_per_m : sqrt (IZR network_size_pc) / 2 = 5.
Proof.
  unfold network_size_pc. replace 100 with (10 * 10) by lra.
  rewrite sqrt_square by lra. lra.
Qed.

Lemma field_activity_formula C px py i j :
  field_activity C (px, py) i j = Spec.place_field C px py i j.
Proof.
  unfold field_activity, Spec.place_field, np_dot2, sub2. simpl fst. simpl snd.
  rewrite cells_per_m. f_equal. f_equal. real_field.
Qed.

Lemma flat_index_col r c : (0 <= c < 10)%Z -> ((r * 10 + c) mod 10 = c)%Z.
Proof.
  intros Hc. rewrite Z.add_comm, Z_mod_plus_full. now apply Z.mod_small.
Qed.

Lemma flat_index_row r c : (0 <= c < 10)%Z -> ((r * 10 + c) / 10 = r)%Z.
Proof.
  intros Hc. rewrite Z.add_comm, Z_div_plus_full by lia.
  rewrite Z.div_small by lia. lia.
Qed.

Lemma place_cell_entry x y reward movement r c :
  (0 <= r < 10)%Z -> (0 <= c < 10)%Z ->
  entry (compute_place_cell_activities x y reward movement) (r * 10 + c)
  = Spec.place_field (amplitude reward movement) (x + 1) (y + 1) c r.
Proof.
  intros Hr Hc. rewrite compute_place_cell_activities_cells. unfold entry.
  rewrite nth_map_range by lia.
  rewrite flat_index_col, flat_index_row by assumption.
  apply field_activity_formula.
Qed.

(** C7, as the code has it.  The unit at grid row [r], column [c] (flat
    index [r * L + c]) receives [C * exp(-|p - center|^2 / (2 d^2))]
    where [p = (x + 1, y + 1)] is the position shifted by one metre and
    the field centre is [(c / cellsPerMeter + 0.1, r / cellsPerMeter +
    0.1)]: the column gives the first coordinate of the centre, the row
    the second.  [C] is 50 when the agent moved or the reward is
    nonzero and 0 otherwise, and with [C = 0] the output is the zero
    vector. *)
Theorem place_field_drive x y reward movement :
  (forall r c, (0 <= r < 10)%Z -> (0 <= c < 10)%Z ->
     entry (compute_place_cell_activities x y reward movement) (r * 10 + c)
     = Spec.place_field (amplitude reward movement) (x + 1) (y + 1) c r)
  /\ (movement = true \/ reward <> 0 -> amplitude reward movement = 50)
  /\ (movement = false -> reward = 0 -> amplitude reward movement = 0)
  /\ (amplitude reward movement = 0 ->
      compute_place_cell_activities x y reward movement = np_zeros 100).
Proof.
  split; [|split; [|split]].
  - intros r c. apply place_cell_entry.
  - unfold amplitude. intros [-> | Hr]; [reflexivity|].
    destruct (Req_dec_T reward 0); [contradiction|]. now rewrite orb_true_r.
  - intros -> ->. unfold amplitude.
    destruct (Req_dec_T 0 0); [reflexivity | contradiction].
  - intros HC. rewrite compute_place_cell_activities_cells, HC.
    apply map_const_range. intros k. unfold field_activity. apply Rmult_0_l.
Qed.

Lemma place_field_drive_witness :
  entry (compute_place_cell_activities 0 0 0 true) (0 * 10 + 1)
  = Spec.place_field (amplitude 0 true) (0 + 1) (0 + 1) 1 0
  /\ amplitude 0 true = 50
  /\ amplitude 0 false = 0
  /\ compute_place_cell_activities 0 0 0 false = np_zeros 100.
Proof.
  split; [|split; [|split]].
  - apply (proj1 (place_field_drive 0 0 0 true)); lia.
  - apply (proj1 (proj2 (place_field_drive 0 0 0 true))). now left.
  - apply (proj1 (proj2 (proj2 (place_field_drive 0 0 0 false)))); reflexivity.
  - apply (proj2 (proj2 (proj2 (place_field_drive 0 0 0 false)))).
    unfold amplitude. destruct (Req_dec_T 0 0); [reflexivity | contradiction].
Defined.

(** C7 as the specification words it fails twice.  At the origin the unit of
    row 0, column 0 does not receive the value computed from the
    position [(0, 0)] itself: the code measures from [(1, 1)].  And at
    [(-0.7, -0.9)] the unit of row 0, column 1 receives the peak value
    50, its centre being [(0.3, 0.1)], not the value of a field centred
    at [(0.1, 0.3)], with or without the shift of the position. *)
Lemma place_field_not_as_claimed :
  entry (compute_place_cell_activities 0 0 0 true) (0 * 10 + 0)
  <> Spec.place_field 50 0 0 0 0
  /\ entry (compute_place_cell_activities (-0.7) (-0.9) 0 true) (0 * 10 + 1) = 50
  /\ entry (compute_place_cell_activities (-0.7) (-0.9) 0 true) (0 * 10 + 1)
     <> Spec.place_field 50 (-0.7) (-0.9) 0 1
  /\ entry (compute_place_cell_activities (-0.7) (-0.9) 0 true) (0 * 10 + 1)
     <> Spec.place_field 50 (-0.7 + 1) (-0.9 + 1) 0 1.
Proof.
  assert (Hexp : forall u v, u < v -> 50 * exp u <> 50 * exp v).
  { intros u v Huv Heq. pose proof (exp_increasing u v Huv). lra. }
  assert (Hpeak : entry (compute_place_cell_activities (-0.7) (-0.9) 0 true) (0 * 10 + 1)
                  = 50).
  { rewrite place_cell_entry by lia. unfold amplitude, Spec.place_field. simpl orb.
    cbv iota. replace (- _ / _) with 0 by real_field.
    rewrite exp_0. lra. }
  split; [|split; [|split]].
  - rewrite place_cell_entry by lia. unfold amplitude, Spec.place_field. simpl orb.
    cbv iota.
    match goal with
    | |- 50 * exp ?u <> 50 * exp ?v =>
        replace u with (-81) by real_field; replace v with (-1) by real_field
    end.
    apply Hexp. lra.
  - exact Hpeak.
  - rewrite Hpeak. unfold Spec.place_field.
    match goal with
    | |- 50 <> 50 * exp ?v => replace v with (-104) by real_field
    end.
    rewrite <- (Rmult_1_r 50) at 1.
    rewrite <- exp_0. apply not_eq_sym, Hexp. lra.
  - rewrite Hpeak. unfold Spec.place_field.
    match goal with
    | |- 50 <> 50 * exp ?v => replace v with (-4) by real_field
    end.
    rewrite <- (Rmult_1_r 50) at 1.
    rewrite <- exp_0. apply not_eq_sym, Hexp. lra.
Qed.

(** ** The loop body on well-formed states *)

Lemma update_intrinsic_e_sized e dt r :
  sized e -> sized r ->
  update_intrinsic_e e dt r
  = Return (map (fun i => intrinsic_e_step (entry e i) dt (entry r i))
                (range network_size_pc)).
Proof.
  intros He Hr. unfold update_intrinsic_e. apply mapM_map.
  intros i Hi. apply range_In in Hi. now rewrite !sized_get.
Qed.

Lemma update_STP_sized D F dt r :
  sized D -> sized F -> sized r ->
  update_STP D F dt r
  = Return (map (fun i => STP_D_step (entry D i) (entry F i) dt (entry r i))
                (range network_size_pc),
            map (fun i => STP_F_step (entry D i) (entry F i) dt (entry r i))
                (range network_size_pc)).
Proof.
  intros HD HF Hr. unfold update_STP.
  rewrite (mapM_map _ (fun i => (STP_D_step (entry D i) (entry F i) dt (entry r i),
                                 STP_F_step (entry D i) (entry F i) dt (entry r i)))).
  - cbn [bind]. rewrite !map_map. reflexivity.
  - intros i Hi. apply range_In in Hi. now rewrite !sized_get.
Qed.

Lemma update_I_inh_sized I dt w r :
  sized r ->
  update_I_inh I dt w r = Return ((- I / 0.05 + w * sum_rates r) * dt + I).
Proof.
  intros Hr. unfold update_I_inh.
  rewrite (foldM_fold _ (fun s i => s + entry r i)); [reflexivity|].
  intros s i Hi. apply range_In in Hi. now rewrite sized_get.
Qed.

Lemma replay_input_sized t0 v : sized v -> sized (replay_input t0 v).
Proof.
  intros Hv. unfold replay_input. destruct (in_pulse t0); [assumption|].
  reflexivity.
Qed.

Lemma tick_next_state st reward_val body_pose :
  well_formed st ->
  tick st reward_val body_pose = Return (next_state st reward_val body_pose).
Proof.
  intros (Hr & Hc & He & Hw & Hd & Hf & Hp). unfold tick, next_state.
  destruct (reward_val =? 0)%Z; simpl negb; cbv iota.
  - rewrite update_currents_explore by assumption. cbn [bind].
    rewrite compute_rates_sized by apply sized_map_units. cbn [bind].
    rewrite update_intrinsic_e_sized by assumption. cbn [bind].
    rewrite update_STP_sized by assumption. cbn [bind].
    rewrite update_I_inh_sized by assumption. cbn [bind].
    reflexivity.
  - pose proof (replay_input_sized (t_replay st + delta_t) (I_place st) Hp) as Hin.
    rewrite update_currents_replay by assumption. cbn [bind].
    rewrite compute_rates_sized by apply sized_map_units. cbn [bind].
    rewrite update_intrinsic_e_sized by assumption. cbn [bind].
    rewrite update_STP_sized by assumption. cbn [bind].
    rewrite update_I_inh_sized by assumption. cbn [bind].
    destruct (Rgt_dec (t_replay st + delta_t) 9); reflexivity.
Qed.

Lemma next_state_well_formed st reward_val body_pose :
  well_formed st -> well_formed (next_state st reward_val body_pose).
Proof.
  intros (Hr & Hc & He & Hw & Hd & Hf & Hp). unfold well_formed, next_state.
  cbn [rates currents intrinsic_e network_weights stp_d stp_f I_place].
  split; [|split; [|split; [|split; [|split; [|split]]]]].
  - apply sized_map, sized_map_units.
  - apply sized_map_units.
  - destruct (_ && _); [reflexivity | apply sized_map_units].
  - assumption.
  - apply sized_map_units.
  - apply sized_map_units.
  - destruct (negb _); [assumption|].
    rewrite compute_place_cell_activities_cells. apply sized_map_units.
Qed.

Lemma initial_state_well_formed : well_formed initial_state.
Proof.
  unfold well_formed, initial_state. cbn.
  repeat split; try reflexivity; apply initialise_weights_sized.
Qed.

Lemma run_next_states st inputs :
  well_formed st ->
  run st inputs
  = Return (fold_left (fun st inp => next_state st (fst inp) (snd inp)) inputs st)
  /\ well_formed
       (fold_left (fun st inp => next_state st (fst inp) (snd inp)) inputs st).
Proof.
  revert st. induction inputs as [|inp inputs IH]; intros st Hst.
  - split; [reflexivity | assumption].
  - unfold run. simpl. rewrite tick_next_state by assumption. cbn [bind].
    apply IH. now apply next_state_well_formed.
Qed.


(** ** Scheduled re-injection of the place cue *)

Lemma between_iff lo hi x : between lo hi x = true <-> lo < x < hi.
Proof.
  unfold between. destruct (Rlt_dec lo x); destruct (Rlt_dec x hi);
    split; intros H; try discriminate; try reflexivity; lra.
Qed.

Lemma in_pulse_iff t0 :
  in_pulse t0 = true
  <-> (1 < t0 < 1.1 \/ 3 < t0 < 3.1 \/ 5 < t0 < 5.1 \/ 7 < t0 < 7.1).
Proof.
  unfold in_pulse. rewrite !orb_true_iff, !between_iff. tauto.
Qed.

Lemma in_pulse_in_windows t0 : in_pulse t0 = true -> Spec.in_windows t0.
Proof.
  intros H. apply in_pulse_iff in H. unfold Spec.in_windows. lra.
Qed.

Lemma replay_input_outside t0 pattern :
  ~ Spec.in_windows t0 -> replay_input t0 pattern = np_zeros network_size_pc.
Proof.
  intros H. unfold replay_input. destruct (in_pulse t0) eqn:Hp; [|reflexivity].
  exfalso. apply H. now apply in_pulse_in_windows.
Qed.

(** C2. In a replay iteration the vector passed to [update_currents] as
    external input is [replay_input] of the elapsed time and the frozen
    [self.I_place]; it differs from the zero vector only when the
    elapsed time lies in (1,1.1], (3,3.1], (5,5.1] or (7,7.1] and the
    frozen pattern is itself nonzero; outside the windows, as at 0.5, 2
    and 8 seconds, it is the zero vector.  The iteration leaves
    [self.I_place] as it was. *)
Theorem replay_cue_schedule :
  (forall t_elapsed pattern,
      replay_input t_elapsed pattern <> np_zeros network_size_pc ->
      Spec.in_windows t_elapsed /\ pattern <> np_zeros network_size_pc)
  /\ (forall t_elapsed pattern,
         ~ Spec.in_windows t_elapsed ->
         replay_input t_elapsed pattern = np_zeros network_size_pc)
  /\ (forall pattern,
         replay_input 0.5 pattern = np_zeros network_size_pc
         /\ replay_input 2 pattern = np_zeros network_size_pc
         /\ replay_input 8 pattern = np_zeros network_size_pc)
  /\ (forall st reward_val body_pose,
         well_formed st -> reward_val <> 0%Z ->
         exists st',
           tick st reward_val body_pose = Return st'
           /\ t_replay st' = t_replay st + delta_t
           /\ I_place st' = I_place st
           /\ update_currents (currents st) delta_t (intrinsic_e st)
                (network_weights st) (rates st) (stp_d st) (stp_f st) (I_inh st)
                (replay_input (t_replay st') (I_place st)) true
              = Return (currents st')).
Proof.
  split; [|split; [|split]].
  - intros t0 pattern H. unfold replay_input in H.
    destruct (in_pulse t0) eqn:Hp; [|contradiction].
    split; [now apply in_pulse_in_windows | assumption].
  - apply replay_input_outside.
  - intros pattern.
    repeat split; apply replay_input_outside; unfold Spec.in_windows; lra.
  - intros st reward_val body_pose Hst Hreward.
    exists (next_state st reward_val body_pose).
    split; [now apply tick_next_state|].
    destruct Hst as (Hr & Hc & He & Hw & Hd & Hf & Hp).
    unfold next_state. apply Z.eqb_neq in Hreward. rewrite Hreward.
    cbn [negb t_replay I_place currents]. repeat split.
    rewrite update_currents_replay; try assumption; [reflexivity|].
    now apply replay_input_sized.
Qed.

Lemma replay_cue_schedule_witness :
  (Spec.in_windows 1.05 /\ np_ones 100 <> np_zeros network_size_pc)
  /\ replay_input 2 (np_ones 100) = np_zeros network_size_pc
  /\ exists st',
       tick initial_state 1 (0, 0) = Return st'
       /\ t_replay st' = t_replay initial_state + delta_t
       /\ I_place st' = I_place initial_state
       /\ update_currents (currents initial_state) delta_t (intrinsic_e initial_state)
            (network_weights initial_state) (rates initial_state)
            (stp_d initial_state) (stp_f initial_state) (I_inh initial_state)
            (replay_input (t_replay st') (I_place initial_state)) true
          = Return (currents st').
Proof.
  destruct replay_cue_schedule as (Honly & Hout & _ & Htick).
  split; [|split].
  - apply Honly. unfold replay_input.
    replace (in_pulse 1.05) with true
      by (symmetry; apply in_pulse_iff; lra).
    intros H. apply (f_equal (fun v => nth 0 v 0)) in H. simpl in H. lra.
  - apply Hout. unfold Spec.in_windows. lra.
  - apply Htick; [apply initial_state_well_formed | discriminate].
Defined.

(** The code tests [t_replay < 1.1]: at the right end of a window the
    cue is already off. *)
Remark replay_input_right_end pattern :
  replay_input 1.1 pattern = np_zeros network_size_pc.
Proof.
  unfold replay_input.
  destruct (in_pulse 1.1) eqn:Hp; [|reflexivity].
  apply in_pulse_iff in Hp. lra.
Qed.

(** ** End of a replay episode *)

Lemma intrinsic_e_reset_entry i :
  (0 <= i < 100)%Z -> entry intrinsic_e_reset i = sigma_ss.
Proof.
  intros Hi. unfold entry, intrinsic_e_reset, np_scale, np_ones, sigma_ss.
  rewrite (nth_indep _ 0 ((fun x => x * 0.1) 0))
    by (rewrite length_map, repeat_length; unfold network_size_pc; lia).
  rewrite (map_nth (fun x => x * 0.1)).
  rewrite nth_repeat_lt by (unfold network_size_pc; lia). lra.
Qed.

Lemma next_state_replay st reward_val body_pose :
  reward_val <> 0%Z ->
  t_replay (next_state st reward_val body_pose) = t_replay st + delta_t
  /\ replay (next_state st reward_val body_pose)
     = (if Rgt_dec (t_replay st + delta_t) 9 then false else true)
  /\ (9 < t_replay st + delta_t ->
      intrinsic_e (next_state st reward_val body_pose) = intrinsic_e_reset).
Proof.
  intros Hreward. apply Z.eqb_neq in Hreward. unfold next_state.
  rewrite Hreward. cbn [negb andb t_replay replay intrinsic_e].
  repeat split.
  - destruct (Rgt_dec (t_replay st + delta_t) 9); reflexivity.
  - intros H. destruct (Rgt_dec (t_replay st + delta_t) 9); [reflexivity|].
    unfold Rgt in *. contradiction.
Qed.

Lemma next_state_explore st body_pose :
  t_replay (next_state st 0 body_pose) = 0
  /\ replay (next_state st 0 body_pose) = false.
Proof. split; reflexivity. Qed.

(** C3, as the code has it.  The iteration in which the elapsed time of
    a replay exceeds 9 s resets the gain of every unit to
    [sigma_ss = 0.1] and leaves [self.replay] false; it keeps the
    elapsed time.  The elapsed time is set back to 0, with
    [self.replay] false, by the next iteration that finds the reward at
    0. *)
Theorem replay_episode_end st reward_val body_pose :
  well_formed st -> reward_val <> 0%Z -> 9 < t_replay st + delta_t ->
  exists st',
    tick st reward_val body_pose = Return st'
    /\ (forall i, (0 <= i < 100)%Z -> entry (intrinsic_e st') i = sigma_ss)
    /\ sigma_ss = 0.1
    /\ replay st' = false
    /\ t_replay st' = t_replay st + delta_t
    /\ forall body_pose',
         exists st'',
           tick st' 0 body_pose' = Return st''
           /\ replay st'' = false
           /\ t_replay st'' = 0.
Proof.
  intros Hst Hreward Hend.
  exists (next_state st reward_val body_pose).
  destruct (next_state_replay st reward_val body_pose Hreward) as (Ht & Hflag & He).
  split; [now apply tick_next_state|].
  split; [intros i Hi; rewrite He by assumption; now apply intrinsic_e_reset_entry|].
  split; [reflexivity|].
  split.
  { rewrite Hflag. destruct (Rgt_dec (t_replay st + delta_t) 9); [reflexivity|].
    unfold Rgt in *. contradiction. }
  split; [assumption|].
  intros body_pose'.
  exists (next_state (next_state st reward_val body_pose) 0 body_pose').
  split; [|split; reflexivity].
  apply tick_next_state. now apply next_state_well_formed.
Qed.

Lemma rewarded_elapsed n st :
  t_replay (fold_left (fun st inp => next_state st (fst inp) (snd inp)) (rewarded n) st)
  = t_replay st + INR n * delta_t.
Proof.
  revert st. induction n as [|n IH]; intros st.
  - simpl. lra.
  - change (rewarded (S n)) with ((1%Z, (0, 0)) :: rewarded n).
    cbn [fold_left fst snd]. rewrite IH.
    destruct (next_state_replay st 1 (0, 0)) as (-> & _); [discriminate|].
    rewrite S_INR. lra.
Qed.

Lemma replay_episode_end_witness :
  exists st st',
    run initial_state (rewarded 900) = Return st
    /\ tick st 1 (0, 0) = Return st'
    /\ (forall i, (0 <= i < 100)%Z -> entry (intrinsic_e st') i = sigma_ss)
    /\ sigma_ss = 0.1
    /\ replay st' = false
    /\ t_replay st' = t_replay st + delta_t
    /\ forall body_pose',
         exists st'',
           tick st' 0 body_pose' = Return st''
           /\ replay st'' = false
           /\ t_replay st'' = 0.
Proof.
  destruct (run_next_states initial_state (rewarded 900) initial_state_well_formed)
    as [Hrun Hwf].
  eexists.
  assert (Hend : 9 < t_replay
                       (fold_left (fun st inp => next_state st (fst inp) (snd inp))
                                  (rewarded 900) initial_state) + delta_t).
  { rewrite rewarded_elapsed.
    replace (INR 900) with 900 by (rewrite INR_IZR_INZ; reflexivity).
    unfold initial_state, delta_t. cbn [t_replay]. lra. }
  destruct (replay_episode_end _ 1 (0, 0) Hwf ltac:(discriminate) Hend)
    as [st' Hst'].
  exists st'. split; [exact Hrun | exact Hst'].
Defined.

(** C3 as the specification words it fails on the elapsed time.  After 901
    iterations with the reward held at 1 the elapsed time has passed
    9 s: the gains are reset and [self.replay] is false, but the
    elapsed time is still 9.01 s, not cleared; and the next iteration,
    the reward still at 1, is a replay iteration again, with the elapsed
    time at 9.02 s. *)
Lemma episode_not_cleared_at_exit :
  exists st st',
    run initial_state (rewarded 901) = Return st
    /\ replay st = false
    /\ t_replay st = 9.01
    /\ t_replay st <> 0
    /\ tick st 1 (0, 0) = Return st'
    /\ t_replay st' = 9.02
    /\ update_currents (currents st) delta_t (intrinsic_e st)
         (network_weights st) (rates st) (stp_d st) (stp_f st) (I_inh st)
         (replay_input (t_replay st') (I_place st)) true
       = Return (currents st').
Proof.
  destruct (run_next_states initial_state (rewarded 901) initial_state_well_formed)
    as [Hrun Hwf].
  pose proof (rewarded_elapsed 901 initial_state) as Ht.
  replace (INR 901) with 901 in Ht by (rewrite INR_IZR_INZ; reflexivity).
  change (rewarded 901) with (rewarded 900 ++ [(1%Z, (0, 0))]) in Hrun, Hwf, Ht.
  rewrite fold_left_app in Hrun, Hwf, Ht. cbn [fold_left fst snd] in Hrun, Hwf, Ht.
  pose proof (rewarded_elapsed 900 initial_state) as Ht0.
  replace (INR 900) with 900 in Ht0 by (rewrite INR_IZR_INZ; reflexivity).
  set (st0 := fold_left (fun st inp => next_state st (fst inp) (snd inp))
                        (rewarded 900) initial_state) in *.
  set (st := next_state st0 1 (0, 0)) in *.
  assert (Hst : t_replay st = 9.01)
    by (rewrite Ht; unfold initial_state, delta_t; cbn [t_replay]; lra).
  exists st, (next_state st 1 (0, 0)).
  split; [exact Hrun|]. split.
  { destruct (next_state_replay st0 1 (0, 0)) as (_ & Hflag & _); [discriminate|].
    fold st in Hflag. rewrite Hflag.
    destruct (Rgt_dec (t_replay st0 + delta_t) 9) as [|Hn]; [reflexivity|].
    exfalso. apply Hn. rewrite Ht0.
    unfold initial_state, delta_t, Rgt. cbn [t_replay]. lra. }
  split; [exact Hst|]. split; [rewrite Hst; lra|].
  split; [now apply tick_next_state|].
  destruct (next_state_replay st 1 (0, 0)) as (Ht' & _); [discriminate|].
  split; [rewrite Ht', Hst; unfold delta_t; lra|].
  destruct Hwf as (Hr & Hc & He & Hw & Hd & Hf & Hp).
  rewrite update_currents_replay; try assumption.
  - unfold next_state at 2. cbn [currents]. reflexivity.
  - now apply replay_input_sized.
Qed.

(** ** Guarded indexing *)

(** C9. Under the guard [is_computable(i, j)], for a unit [i] of the
    grid and a slot [j] in 0..7, [neighbour_index] returns an integer
    in [0, 100): the three reads [rates[neighbour]],
    [stp_d[neighbour]], [stp_f[neighbour]] are in bounds (no wrap-around,
    no [IndexError]), the final [else] of [neighbour_index] is not
    reached, and the replay-mode [update_currents] returns on arrays of
    the network's size. *)
Theorem guarded_neighbour_reads :
  (forall i j,
      (0 <= i < 100)%Z -> (0 <= j < 8)%Z -> is_computable i j = true ->
      exists k,
        neighbour_index i j = Return (PyInt k)
        /\ (0 <= k < 100)%Z
        /\ neighbour_index i j <> Return PyClass_IndexError
        /\ forall v, sized v ->
             np_get_obj v (PyInt k) = Return (nth (Z.to_nat k) v 0))
  /\ (forall currents dt intrinsic_e weights rates stp_d stp_f I_inh I_place,
         table_sized weights -> sized rates -> sized stp_d -> sized stp_f ->
         sized intrinsic_e -> sized currents -> sized I_place ->
         returns (update_currents currents dt intrinsic_e weights rates stp_d stp_f
                                  I_inh I_place true)).
Proof.
  split.
  - intros i j Hi Hj Hc.
    destruct (neighbour_of_valid_slot i j Hi Hj Hc) as [k [Hk Hrange]].
    exists k. rewrite Hk. repeat split; try lia; try discriminate.
    intros v Hv. simpl. now apply sized_get.
  - intros. eexists. now apply update_currents_replay.
Qed.

Lemma guarded_neighbour_reads_witness :
  (exists k,
      neighbour_index 99 1 = Return (PyInt k)
      /\ (0 <= k < 100)%Z
      /\ neighbour_index 99 1 <> Return PyClass_IndexError
      /\ forall v, sized v ->
           np_get_obj v (PyInt k) = Return (nth (Z.to_nat k) v 0))
  /\ returns (update_currents (np_zeros 100) delta_t intrinsic_e_reset
                initialise_weights (np_ones 100) (np_ones 100) (np_ones 100)
                0 (np_zeros 100) true).
Proof.
  destruct guarded_neighbour_reads as [Hread Hupdate].
  split.
  - apply Hread; [lia | lia | reflexivity].
  - apply Hupdate; try reflexivity. apply initialise_weights_sized.
Defined.

(** ** Global inhibition *)

Lemma sum_rates_nonneg r : nonneg_units r -> 0 <= sum_rates r.
Proof.
  intros Hr. unfold sum_rates.
  apply (fold_valid_lower (fun _ => true) (entry r) (range network_size_pc) 0).
  intros i Hi _. apply Hr. now apply range_In in Hi.
Qed.

Lemma inhibition_step_nonneg I r :
  0 <= I -> nonneg_units r ->
  0 <= (- I / 0.05 + w_inh * sum_rates r) * delta_t + I.
Proof.
  intros HI Hr. pose proof (sum_rates_nonneg r Hr) as Hs.
  unfold w_inh, delta_t.
  replace ((- I / 0.05 + 0.1 * sum_rates r) * 0.01 + I)
    with (0.8 * I + 0.001 * sum_rates r) by lra.
  lra.
Qed.

Lemma rates_of_currents_nonneg v : nonneg_units (map rate_of_current v).
Proof.
  intros i _. unfold entry.
  destruct (nth_in_or_default (Z.to_nat i) (map rate_of_current v) 0) as [Hin | ->];
    [|lra].
  apply in_map_iff in Hin. destruct Hin as [c [<- _]].
  apply rate_of_current_bounds.
Qed.

Lemma next_state_inhibition st reward_val body_pose :
  inhibition_invariant st ->
  inhibition_invariant (next_state st reward_val body_pose).
Proof.
  intros (Hwf & Hr & HI). split; [now apply next_state_well_formed|].
  unfold next_state. cbn [rates I_inh]. split.
  - apply rates_of_currents_nonneg.
  - now apply inhibition_step_nonneg.
Qed.

Lemma initial_state_inhibition : inhibition_invariant initial_state.
Proof.
  split; [apply initial_state_well_formed|]. split.
  - intros i Hi. unfold initial_state. cbn [rates]. unfold np_zeros.
    rewrite entry_repeat by (unfold network_size_pc; lia). lra.
  - unfold initial_state. cbn [I_inh]. lra.
Qed.

Lemma fold_next_state_inhibition inputs st :
  inhibition_invariant st ->
  inhibition_invariant
    (fold_left (fun st inp => next_state st (fst inp) (snd inp)) inputs st).
Proof.
  revert st. induction inputs as [|inp inputs IH]; intros st Hst; [assumption|].
  simpl. apply IH. now apply next_state_inhibition.
Qed.

(** C10. One step of [update_I_inh] with [delta_t = 0.01] and
    [tau_inh = 0.05] sends an inhibition [>= 0] and rates [>= 0] to a
    value [>= 0] (it is [0.8 * I_inh + 0.001 * sum_rates]);
    [compute_rates] only yields rates [>= 0]; and the inhibition, 0 at
    start, is [>= 0] after every iteration of the loop, whatever the
    reward and pose readings are. *)
Theorem inhibition_nonnegative :
  (forall I r, 0 <= I -> sized r -> nonneg_units r ->
     exists I',
       update_I_inh I delta_t w_inh r = Return I'
       /\ I' = (1 - delta_t / 0.05) * I + w_inh * delta_t * sum_rates r
       /\ 0 <= I')
  /\ 1 - delta_t / 0.05 = 0.8
  /\ (forall currents, sized currents ->
        exists r, compute_rates currents = Return r /\ nonneg_units r)
  /\ I_inh initial_state = 0
  /\ (forall inputs,
        exists st, run initial_state inputs = Return st /\ 0 <= I_inh st).
Proof.
  split; [|split; [|split; [|split]]].
  - intros I r HI Hs Hr. eexists. split; [now apply update_I_inh_sized|].
    split; [unfold delta_t, w_inh; lra | now apply inhibition_step_nonneg].
  - unfold delta_t. lra.
  - intros currents Hc. eexists. split; [now apply compute_rates_sized|].
    apply rates_of_currents_nonneg.
  - reflexivity.
  - intros inputs.
    destruct (run_next_states initial_state inputs initial_state_well_formed)
      as [Hrun _].
    eexists. split; [exact Hrun|].
    apply (fold_next_state_inhibition inputs initial_state initial_state_inhibition).
Qed.

Lemma inhibition_nonnegative_witness :
  (exists I',
      update_I_inh 1 delta_t w_inh (np_ones 100) = Return I'
      /\ I' = (1 - delta_t / 0.05) * 1 + w_inh * delta_t * sum_rates (np_ones 100)
      /\ 0 <= I')
  /\ (exists r, compute_rates (np_zeros 100) = Return r /\ nonneg_units r)
  /\ exists st, run initial_state (rewarded 3) = Return st /\ 0 <= I_inh st.
Proof.
  destruct inhibition_nonnegative as (Hstep & _ & Hrates & _ & Hrun).
  split; [|split].
  - apply Hstep; [lra | reflexivity |].
    intros i Hi. apply entry_repeat_nonneg. lra.
  - apply Hrates. reflexivity.
  - apply Hrun.
Defined.

(** ** The recurrent term on the states the loop reaches *)

Lemma STP_D_step_bounds D F r :
  0 <= D <= 1 -> 0 <= F <= 1 -> 0 <= r <= 100 ->
  0 <= STP_D_step D F delta_t r <= 1.
Proof.
  intros HD HF Hr. unfold STP_D_step, delta_t.
  replace (((1.0 - D) / 1.5 - r * D * F) * 0.01 + D)
    with (D + (1 - D) / 150 - 0.01 * r * (D * F)) by lra.
  assert (0 <= D * F <= D) by nra.
  assert (0 <= 0.01 * r * (D * F) <= D * F) by nra.
  lra.
Qed.

Lemma STP_F_step_bounds D F r :
  0 <= F <= 1 -> 0 <= r <= 100 ->
  0 <= STP_F_step D F delta_t r <= 1.
Proof.
  intros HF Hr. unfold STP_F_step, delta_t.
  replace (((0.6 - F) / 1 + 0.6 * (1 - F) * r) * 0.01 + F)
    with (0.99 * F + 0.006 + 0.006 * (r * (1 - F))) by lra.
  assert (0 <= r * (1 - F) <= 100 * (1 - F)) by nra.
  lra.
Qed.

Lemma intrinsic_e_step_bounds e r :
  sigma_ss <= e -> sigma_ss <= intrinsic_e_step e delta_t r <= sigma_max.
Proof.
  intros He. unfold intrinsic_e_step, sigma_ss, sigma_max, delta_t in *.
  cbv zeta.
  match goal with |- context [exp ?u] => set (x := exp u) end.
  assert (Hx : 0 < x) by apply exp_pos.
  set (s := (4 - 1) / (1 + x)).
  assert (Hs : 0 < s) by (apply Rdiv_lt_0_compat; lra).
  destruct (Rgt_dec (((0.1 - e) / 10 + s) * 0.01 + e) 4) as [Hgt|Hle].
  - lra.
  - unfold Rgt in Hle. lra.
Qed.

Lemma next_state_dynamics st reward_val body_pose :
  dynamics_invariant st ->
  dynamics_invariant (next_state st reward_val body_pose).
Proof.
  intros (Hwf & Hw & Hr & Hd & Hf & He).
  split; [now apply next_state_well_formed|].
  unfold next_state. cbn [network_weights rates stp_d stp_f intrinsic_e].
  split; [assumption|]. split; [|split; [|split]].
  - intros i Hi. unfold currents_after.
    rewrite map_map, entry_map_units by assumption.
    apply rate_of_current_bounds.
  - intros i Hi. rewrite entry_map_units by assumption.
    apply STP_D_step_bounds; [apply Hd | apply Hf | apply Hr]; assumption.
  - intros i Hi. rewrite entry_map_units by assumption.
    apply STP_F_step_bounds; [apply Hf | apply Hr]; assumption.
  - intros i Hi. destruct (_ && _).
    + rewrite intrinsic_e_reset_entry by assumption.
      unfold sigma_ss, sigma_max. lra.
    + rewrite entry_map_units by assumption.
      apply intrinsic_e_step_bounds. now apply He.
Qed.

Lemma initial_state_dynamics : dynamics_invariant initial_state.
Proof.
  split; [apply initial_state_well_formed|].
  unfold initial_state. cbn [network_weights rates stp_d stp_f intrinsic_e].
  split; [reflexivity|]. split; [|split; [|split]]; intros i Hi.
  - unfold np_zeros. rewrite entry_repeat by (unfold network_size_pc; lia). lra.
  - unfold np_ones. rewrite entry_repeat by (unfold network_size_pc; lia). lra.
  - unfold np_scale, np_ones, entry.
    rewrite (nth_indep _ 0 ((fun x => x * 0.6) 0))
      by (rewrite length_map, repeat_length; unfold network_size_pc; lia).
    rewrite (map_nth (fun x => x * 0.6)).
    rewrite nth_repeat_lt by (unfold network_size_pc; lia). lra.
  - rewrite intrinsic_e_reset_entry by assumption. unfold sigma_ss, sigma_max. lra.
Qed.

Lemma fold_next_state_dynamics inputs st :
  dynamics_invariant st ->
  dynamics_invariant
    (fold_left (fun st inp => next_state st (fst inp) (snd inp)) inputs st).
Proof.
  revert st. induction inputs as [|inp inputs IH]; intros st Hst; [assumption|].
  simpl. apply IH. now apply next_state_dynamics.
Qed.




(** ** Mode gating of the recurrent term *)



(** * Further properties of the code *)

(** ** The guard and the lattice *)

Lemma guard_is_adjacency_check :
  forallb (fun i =>
             forallb (fun j => Bool.eqb (is_computable i j)
                                        (adjacent i (neighbour_unit i j)))
                     (range 8))
          (range 100) = true.
Proof. vm_compute. reflexivity. Qed.

(** For a unit of the grid and a slot in 0..7, [is_computable] holds
    exactly when [neighbour_index] lands on a unit of the grid in the
    same or a neighbouring row and column: the slots it refuses are
    those that leave the array or wrap around a row end. *)
Theorem is_computable_adjacent i j :
  (0 <= i < 100)%Z -> (0 <= j < 8)%Z ->
  is_computable i j = adjacent i (neighbour_unit i j).
Proof.
  intros Hi Hj.
  pose proof (range_forallb _ _ (range_forallb _ _ guard_is_adjacency_check i Hi) j Hj)
    as H.
  now apply Bool.eqb_prop in H.
Qed.

Lemma is_computable_adjacent_witness :
  is_computable 10 0 = adjacent 10 (neighbour_unit 10 0).
Proof. apply is_computable_adjacent; lia. Defined.

Lemma one_slot_per_neighbour_check :
  forallb (fun i =>
             forallb (fun k => Bool.eqb (adjacent i k)
                                        (Nat.eqb (length (slots_to i k)) 1)
                               && (length (slots_to i k) <=? 1)%nat)
                     (range 100))
          (range 100) = true.
Proof. vm_compute. reflexivity. Qed.

(** Every lattice neighbour [k] of a unit [i] is reached through exactly
    one valid slot, and a unit that is not a lattice neighbour through
    none: the valid slots of [i] enumerate its neighbours without
    repetition or omission. *)
Theorem one_slot_per_neighbour i k :
  (0 <= i < 100)%Z -> (0 <= k < 100)%Z ->
  (adjacent i k = true ->
   exists j, slots_to i k = [j]
             /\ (0 <= j < 8)%Z /\ is_computable i j = true
             /\ neighbour_index i j = Return (PyInt k))
  /\ (adjacent i k = false -> slots_to i k = []).
Proof.
  intros Hi Hk.
  pose proof (range_forallb _ _ (range_forallb _ _ one_slot_per_neighbour_check i Hi) k Hk)
    as H.
  apply andb_true_iff in H. destruct H as [Hadj Hle].
  apply Bool.eqb_prop in Hadj. apply Nat.leb_le in Hle.
  split; intros Ha; rewrite Ha in Hadj; symmetry in Hadj.
  - apply Nat.eqb_eq in Hadj.
    destruct (slots_to i k) as [|j [|j' l]] eqn:Hs; try discriminate.
    exists j. split; [reflexivity|].
    assert (Hin : In j (slots_to i k)) by (rewrite Hs; now left).
    unfold slots_to in Hin. apply filter_In in Hin. destruct Hin as [Hj Hjk].
    apply range_In in Hj. apply andb_true_iff in Hjk. destruct Hjk as [Hc Hn].
    apply Z.eqb_eq in Hn. repeat split; try lia; try assumption.
    destruct (neighbour_of_valid_slot i j Hi Hj Hc) as [k' [Hk' _]].
    unfold neighbour_unit in Hn. rewrite Hk' in Hn. now subst.
  - apply Nat.eqb_neq in Hadj.
    destruct (slots_to i k) as [|j [|j' l]]; simpl in *; try reflexivity; lia.
Qed.

Lemma one_slot_per_neighbour_witness :
  (exists j, slots_to 0 11 = [j]
             /\ (0 <= j < 8)%Z /\ is_computable 0 j = true
             /\ neighbour_index 0 j = Return (PyInt 11))
  /\ slots_to 10 9 = [].
Proof.
  split.
  - apply (one_slot_per_neighbour 0 11); [lia | lia | reflexivity].
  - apply (one_slot_per_neighbour 10 9); [lia | lia | reflexivity].
Defined.

Lemma unknown_slot_returns_class i j :
  (j < 0 \/ 7 < j)%Z -> neighbour_index i j = Return PyClass_IndexError.
Proof.
  intros Hj. unfold neighbour_index.
  repeat match goal with
         | |- context [(j =? ?c)%Z] => destruct (Z.eqb_spec j c); [lia|]
         end.
  reflexivity.
Qed.

(** [is_computable] does not check the slot: for a slot outside 0..7 it
    answers [True] for every unit, and the guarded read of
    [update_currents] that follows then raises [IndexError], whatever
    the arrays hold. *)
Theorem unknown_slot_passes_guard i j :
  (j < 0 \/ 7 < j)%Z ->
  is_computable i j = true
  /\ forall weights rates stp_d stp_f s,
       add_neighbour weights rates stp_d stp_f i s j = Raise IndexError.
Proof.
  intros Hj.
  assert (Hc : is_computable i j = true).
  { unfold is_computable.
    repeat match goal with
           | |- context [(j =? ?c)%Z] => destruct (Z.eqb_spec j c); [lia|]
           end.
    simpl. rewrite !andb_false_r. reflexivity. }
  split; [exact Hc|].
  intros weights rates stp_d stp_f s. unfold add_neighbour. rewrite Hc.
  rewrite unknown_slot_returns_class by assumption. cbn [bind].
  destruct (np_get2 weights i j) as [w|[]]; reflexivity.
Qed.

Lemma unknown_slot_passes_guard_witness :
  is_computable 0 8 = true
  /\ forall weights rates stp_d stp_f s,
       add_neighbour weights rates stp_d stp_f 0 s 8 = Raise IndexError.
Proof. apply unknown_slot_passes_guard. right. lia. Defined.

(** ** Array lengths *)

Lemma mapM_raise {A B : Type} (body : A -> outcome B) xs x :
  In x xs -> body x = Raise IndexError -> mapM body xs = Raise IndexError.
Proof.
  induction xs as [|y xs IH]; intros Hin Hx; [destruct Hin|].
  simpl. destruct (body y) as [b|[]] eqn:Hy; [|reflexivity].
  destruct Hin as [-> | Hin]; [congruence|].
  cbn [bind]. now rewrite IH.
Qed.

Lemma np_get_past_end v :
  np_get v (Z.of_nat (length v)) = Raise IndexError.
Proof.
  unfold np_get, in_range.
  replace (Z.of_nat (length v) <? Z.of_nat (length v))%Z with false
    by (symmetry; apply Z.ltb_ge; lia).
  replace (Z.of_nat (length v) <? 0)%Z with false
    by (symmetry; apply Z.ltb_ge; lia).
  now rewrite !andb_false_r.
Qed.

Lemma map_nth_firstn {B : Type} (f : R -> B) (v : list R) :
  (100 <= length v)%nat ->
  map (fun i => f (nth (Z.to_nat i) v 0)) (range network_size_pc)
  = map f (firstn 100 v).
Proof.
  intros Hv.
  assert (Hs : sized (firstn 100 v)) by (unfold sized; rewrite length_firstn; lia).
  rewrite <- (sized_map_range f (firstn 100 v) Hs).
  apply map_ext_in. intros i Hi. apply range_In in Hi.
  rewrite nth_firstn.
  replace (Z.to_nat i <? 100)%nat with true; [reflexivity|].
  symmetry. apply Nat.ltb_lt. unfold network_size_pc in Hi. lia.
Qed.

(** [compute_rates] reads the first 100 entries of its argument: on an
    array of at least 100 entries it returns the transfer of those 100
    and ignores the rest; on a shorter one it raises [IndexError]. *)
Theorem compute_rates_length currents :
  ((100 <= length currents)%nat ->
   compute_rates currents = Return (map rate_of_current (firstn 100 currents)))
  /\ ((length currents < 100)%nat ->
      compute_rates currents = Raise IndexError).
Proof.
  split; intros Hlen; unfold compute_rates.
  - rewrite (mapM_map _ (fun i => rate_of_current (nth (Z.to_nat i) currents 0))).
    + now rewrite map_nth_firstn.
    + intros i Hi. apply range_In in Hi. unfold network_size_pc in Hi.
      rewrite np_get_inside by lia. reflexivity.
  - apply (mapM_raise _ _ (Z.of_nat (length currents))).
    + apply range_In. unfold network_size_pc. lia.
    + now rewrite np_get_past_end.
Qed.

Lemma compute_rates_length_witness :
  compute_rates (repeat 50 120) = Return (map rate_of_current (firstn 100 (repeat 50 120)))
  /\ compute_rates (repeat 50 99) = Raise IndexError.
Proof.
  split.
  - apply (proj1 (compute_rates_length (repeat 50 120))).
    rewrite repeat_length. lia.
  - apply (proj2 (compute_rates_length (repeat 50 99))).
    rewrite repeat_length. lia.
Defined.

(** ** Leaky integration in explore mode *)

(** With [delta_t = 0.01] the explore-mode update moves every current
    a fifth of the way to [I_place[i] - I_inh]: the distance to that
    level shrinks by the factor 0.8 in each step, so the level is the
    only fixed point. *)
Theorem update_currents_explore_relaxes
        currents intrinsic_e weights rates stp_d stp_f I_inh I_place i :
  sized currents -> sized I_place -> (0 <= i < 100)%Z ->
  exists currents',
    update_currents currents delta_t intrinsic_e weights rates stp_d stp_f
                    I_inh I_place false = Return currents'
    /\ sized currents'
    /\ entry currents' i - (entry I_place i - I_inh)
       = 0.8 * (entry currents i - (entry I_place i - I_inh)).
Proof.
  intros Hc Hp Hi. eexists. split; [now apply update_currents_explore|].
  split; [apply sized_map_units|].
  rewrite entry_map_units by assumption. unfold delta_t, tau_I. lra.
Qed.

Lemma update_currents_explore_relaxes_witness :
  exists currents',
    update_currents (np_ones 100) delta_t [] [] [] [] [] 0 (np_zeros 100) false
    = Return currents'
    /\ sized currents'
    /\ entry currents' 5 - (entry (np_zeros 100) 5 - 0)
       = 0.8 * (entry (np_ones 100) 5 - (entry (np_zeros 100) 5 - 0)).
Proof.
  apply update_currents_explore_relaxes; [reflexivity | reflexivity | lia].
Defined.

(** ** Intrinsic excitability *)

(** Whatever gain and rate it is given, one step of the gain update
    ends at or below [sigma_max = 4]; a gain at or above the baseline
    [sigma_ss = 0.1] stays there, and a gain at or below the baseline
    strictly grows: the sigmoid term is positive at every rate. *)
Theorem intrinsic_e_step_range e r :
  intrinsic_e_step e delta_t r <= sigma_max
  /\ (sigma_ss <= e -> sigma_ss <= intrinsic_e_step e delta_t r)
  /\ (e <= sigma_ss -> e < intrinsic_e_step e delta_t r).
Proof.
  unfold intrinsic_e_step, sigma_ss, sigma_max, delta_t. cbv zeta.
  match goal with |- context [exp ?u] => set (x := exp u) end.
  assert (Hx : 0 < x) by apply exp_pos.
  set (s := (4 - 1) / (1 + x)).
  assert (Hs : 0 < s) by (apply Rdiv_lt_0_compat; lra).
  destruct (Rgt_dec (((0.1 - e) / 10 + s) * 0.01 + e) 4) as [Hgt|Hle].
  - repeat split; intros; lra.
  - unfold Rgt in Hle. repeat split; intros; lra.
Qed.

Lemma intrinsic_e_step_range_witness :
  sigma_ss <= intrinsic_e_step 0.1 delta_t 0
  /\ 0 < intrinsic_e_step 0 delta_t 0.
Proof.
  split.
  - apply (proj1 (proj2 (intrinsic_e_step_range 0.1 0))). unfold sigma_ss. lra.
  - apply (proj2 (proj2 (intrinsic_e_step_range 0 0))). unfold sigma_ss. lra.
Defined.

(** ** Short-term plasticity *)

Lemma fold_Rmax_bounds lo hi v x :
  lo <= x <= hi -> (forall y, In y v -> lo <= y <= hi) ->
  lo <= fold_left Rmax v x <= hi.
Proof.
  revert x. induction v as [|y v IH]; intros x Hx Hv; [exact Hx|].
  simpl. apply IH.
  - pose proof (Hv y (or_introl eq_refl)). unfold Rmax.
    destruct (Rle_dec x y); lra.
  - intros z Hz. apply Hv. now right.
Qed.

Lemma fold_Rmin_bounds lo hi v x :
  lo <= x <= hi -> (forall y, In y v -> lo <= y <= hi) ->
  lo <= fold_left Rmin v x <= hi.
Proof.
  revert x. induction v as [|y v IH]; intros x Hx Hv; [exact Hx|].
  simpl. apply IH.
  - pose proof (Hv y (or_introl eq_refl)). unfold Rmin.
    destruct (Rle_dec x y); lra.
  - intros z Hz. apply Hv. now right.
Qed.

Lemma within_In lo hi v x :
  sized v -> within lo hi v -> In x v -> lo <= x <= hi.
Proof.
  intros Hs Hw Hin. destruct (In_nth v x 0 Hin) as [n [Hn <-]].
  unfold sized in Hs. specialize (Hw (Z.of_nat n)).
  unfold entry in Hw. rewrite Nat2Z.id in Hw. apply Hw. lia.
Qed.

Lemma within_extrema lo hi v :
  sized v -> within lo hi v ->
  lo <= py_max v <= hi /\ lo <= py_min v <= hi.
Proof.
  intros Hs Hw. pose proof (within_In lo hi v) as Hin.
  destruct v as [|x v]; [discriminate|].
  unfold py_max, py_min. cbn [hd tl].
  split; [apply fold_Rmax_bounds | apply fold_Rmin_bounds];
    try (apply (Hin x Hs Hw); now left);
    intros y Hy; apply (Hin y Hs Hw); now right.
Qed.

Lemma in_bounds_no_warning D F :
  sized D -> sized F -> within 0 1 D -> within 0 1 F ->
  STP_out_of_bounds D F = false.
Proof.
  intros HsD HsF HD HF.
  destruct (within_extrema 0 1 D HsD HD) as [HDmax HDmin].
  destruct (within_extrema 0 1 F HsF HF) as [HFmax HFmin].
  unfold STP_out_of_bounds.
  destruct (Rgt_dec (py_max D) 1) as [H|_]; [unfold Rgt in H; lra|].
  destruct (Rlt_dec (py_min D) 0) as [H|_]; [lra|].
  destruct (Rgt_dec (py_max F) 1) as [H|_]; [unfold Rgt in H; lra|].
  destruct (Rlt_dec (py_min F) 0) as [H|_]; [lra|].
  reflexivity.
Qed.

(** With [delta_t = 0.01], rates in [0, 100] and both STP arrays in
    [0, 1], [update_STP] returns arrays that are again in [0, 1]: the
    out-of-bounds test at its end is false and nothing is printed. *)
Theorem update_STP_keeps_bounds D F r :
  sized D -> sized F -> sized r ->
  within 0 1 D -> within 0 1 F -> within 0 100 r ->
  exists D' F',
    update_STP D F delta_t r = Return (D', F')
    /\ sized D' /\ sized F'
    /\ within 0 1 D' /\ within 0 1 F'
    /\ STP_out_of_bounds D' F' = false.
Proof.
  intros HsD HsF Hsr HD HF Hr. do 2 eexists.
  split; [now apply update_STP_sized|].
  assert (HD' : within 0 1
                  (map (fun i => STP_D_step (entry D i) (entry F i) delta_t (entry r i))
                       (range network_size_pc))).
  { intros i Hi. rewrite entry_map_units by assumption.
    apply STP_D_step_bounds; [apply HD | apply HF | apply Hr]; assumption. }
  assert (HF' : within 0 1
                  (map (fun i => STP_F_step (entry D i) (entry F i) delta_t (entry r i))
                       (range network_size_pc))).
  { intros i Hi. rewrite entry_map_units by assumption.
    apply STP_F_step_bounds; [apply HF | apply Hr]; assumption. }
  split; [apply sized_map_units|]. split; [apply sized_map_units|].
  split; [exact HD'|]. split; [exact HF'|].
  apply in_bounds_no_warning; try apply sized_map_units; assumption.
Qed.

Lemma update_STP_keeps_bounds_witness :
  exists D' F',
    update_STP (np_ones 100) (np_ones 100) delta_t (np_ones 100) = Return (D', F')
    /\ sized D' /\ sized F'
    /\ within 0 1 D' /\ within 0 1 F'
    /\ STP_out_of_bounds D' F' = false.
Proof.
  apply update_STP_keeps_bounds; try reflexivity;
    intros i Hi; unfold np_ones; rewrite entry_repeat by lia; lra.
Defined.

(** At rate 0 the STP variables recover towards their resting values,
    depression to 1 and facilitation to [U = 0.6]: one step multiplies
    the distance to the resting value by [1 - delta_t / tau_d] and
    [1 - delta_t / tau_f]. *)
Theorem update_STP_recovers D F i :
  sized D -> sized F -> (0 <= i < 100)%Z ->
  exists D' F',
    update_STP D F delta_t (np_zeros 100) = Return (D', F')
    /\ entry D' i - 1 = (1 - delta_t / 1.5) * (entry D i - 1)
    /\ entry F' i - 0.6 = (1 - delta_t / 1) * (entry F i - 0.6).
Proof.
  intros HsD HsF Hi. do 2 eexists.
  split; [apply update_STP_sized; try assumption; reflexivity|].
  rewrite !entry_map_units by assumption.
  unfold np_zeros. rewrite entry_repeat by lia.
  unfold STP_D_step, STP_F_step, delta_t. split; lra.
Qed.

Lemma update_STP_recovers_witness :
  exists D' F',
    update_STP (np_zeros 100) (np_ones 100) delta_t (np_zeros 100) = Return (D', F')
    /\ entry D' 3 - 1 = (1 - delta_t / 1.5) * (entry (np_zeros 100) 3 - 1)
    /\ entry F' 3 - 0.6 = (1 - delta_t / 1) * (entry (np_ones 100) 3 - 0.6).
Proof. apply update_STP_recovers; [reflexivity | reflexivity | lia]. Defined.

(** ** The loop as a whole *)

Lemma fold_next_state_time inputs st :
  t (fold_left (fun st inp => next_state st (fst inp) (snd inp)) inputs st)
  = t st + INR (length inputs) * delta_t.
Proof.
  revert st. induction inputs as [|inp inputs IH]; intros st.
  - simpl. lra.
  - cbn [fold_left]. rewrite IH.
    change (length (inp :: inputs)) with (S (length inputs)). rewrite S_INR.
    unfold next_state. cbn [t]. lra.
Qed.

(** From the state [__init__] builds, the place-cell section of the
    loop never raises, whatever reward and pose readings it is fed: after
    any number of iterations every array still has 100 entries, the
    weight table is the one built at start, the rates lie in [0, 100],
    the STP variables in [0, 1] (so [update_STP] never prints its
    warning), the gains in [0.1, 4], and the clock shows the number of
    iterations times [delta_t]. *)
Theorem run_keeps_network_in_range inputs :
  exists st,
    run initial_state inputs = Return st
    /\ well_formed st
    /\ network_weights st = initialise_weights
    /\ within 0 100 (rates st)
    /\ within 0 1 (stp_d st) /\ within 0 1 (stp_f st)
    /\ STP_out_of_bounds (stp_d st) (stp_f st) = false
    /\ within sigma_ss sigma_max (intrinsic_e st)
    /\ t st = INR (length inputs) * delta_t.
Proof.
  destruct (run_next_states initial_state inputs initial_state_well_formed)
    as [Hrun _].
  pose proof (fold_next_state_dynamics inputs initial_state initial_state_dynamics)
    as (Hwf & Hw & Hr & Hd & Hf & He).
  pose proof (fold_next_state_time inputs initial_state) as Ht.
  eexists. split; [exact Hrun|].
  split; [exact Hwf|]. split; [exact Hw|]. split; [exact Hr|].
  split; [exact Hd|]. split; [exact Hf|].
  split; [apply in_bounds_no_warning; try assumption; apply Hwf|].
  split; [exact He|].
  rewrite Ht. unfold initial_state. cbn [t]. lra.
Qed.

Lemma fold_next_state_episode inputs st :
  0 <= t_replay st /\ (replay st = true -> 0 < t_replay st <= 9) ->
  let st' := fold_left (fun st inp => next_state st (fst inp) (snd inp)) inputs st in
  0 <= t_replay st' /\ (replay st' = true -> 0 < t_replay st' <= 9).
Proof.
  revert st. induction inputs as [|inp inputs IH]; intros st Hst; [exact Hst|].
  cbn [fold_left]. apply IH. destruct Hst as [Ht _].
  unfold next_state. cbn [t_replay replay].
  destruct (fst inp =? 0)%Z; cbn [negb andb].
  - split; [lra | discriminate].
  - unfold delta_t in *. split; [lra|].
    destruct (Rgt_dec (t_replay st + 0.01) 9) as [Hgt|Hle]; cbn [negb];
      [discriminate|].
    intros _. unfold Rgt in Hle. lra.
Qed.

(** On every state the loop reaches, the elapsed replay time is never
    negative, and while [self.replay] is set it lies in (0, 9]: the flag
    is never left standing past the 9 s limit. *)
Theorem replay_flag_within_limit inputs :
  exists st,
    run initial_state inputs = Return st
    /\ 0 <= t_replay st
    /\ (replay st = true -> 0 < t_replay st <= 9).
Proof.
  destruct (run_next_states initial_state inputs initial_state_well_formed)
    as [Hrun _].
  eexists. split; [exact Hrun|].
  apply (fold_next_state_episode inputs initial_state).
  unfold initial_state. cbn [t_replay replay]. split; [lra | discriminate].
Qed.

Lemma replay_flag_within_limit_witness :
  exists st,
    run initial_state (rewarded 1) = Return st
    /\ replay st = true
    /\ 0 < t_replay st <= 9.
Proof.
  destruct (replay_flag_within_limit (rewarded 1)) as (st & Hrun & _ & Hflag).
  exists st. split; [exact Hrun|].
  assert (Hst : replay st = true).
  { destruct (run_next_states initial_state (rewarded 1) initial_state_well_formed)
      as [Hrun' _].
    rewrite Hrun' in Hrun. injection Hrun as <-.
    cbn [rewarded repeat fold_left fst snd].
    destruct (next_state_replay initial_state 1 (0, 0)) as (_ & -> & _);
      [discriminate|].
    unfold initial_state, delta_t. cbn [t_replay].
    destruct (Rgt_dec (0 + 0.01) 9) as [Hgt|_]; [unfold Rgt in Hgt; lra | reflexivity]. }
  split; [exact Hst | exact (Hflag Hst)].
Defined.

(** ** Place-field drive *)

Lemma exp_nonpos_le_1 u : u <= 0 -> 0 < exp u <= 1.
Proof.
  intros Hu. split; [apply exp_pos|].
  destruct Hu as [Hu | ->]; [|rewrite exp_0; lra].
  pose proof (exp_increasing u 0 Hu) as H. rewrite exp_0 in H. lra.
Qed.

(** Whatever the position, the place-field drive has one entry per
    unit, each between 0 and the amplitude [C], and [C] is 0 or 50; so
    every entry lies in [0, 50]. *)
Theorem place_field_drive_range x y reward movement :
  sized (compute_place_cell_activities x y reward movement)
  /\ (amplitude reward movement = 0 \/ amplitude reward movement = 50)
  /\ within 0 (amplitude reward movement)
            (compute_place_cell_activities x y reward movement)
  /\ within 0 50 (compute_place_cell_activities x y reward movement).
Proof.
  assert (HC01 : amplitude reward movement = 0 \/ amplitude reward movement = 50)
    by (unfold amplitude; destruct (_ || _); [right | left]; reflexivity).
  assert (HC : 0 <= amplitude reward movement <= 50) by (destruct HC01; lra).
  assert (Hwithin : within 0 (amplitude reward movement)
                      (compute_place_cell_activities x y reward movement));
    [|split; [rewrite compute_place_cell_activities_cells; apply sized_map_units|];
      split; [exact HC01|]; split; [exact Hwithin|];
      intros i Hi; specialize (Hwithin i Hi); lra].
  rewrite compute_place_cell_activities_cells.
  intros i Hi. change 100%Z with network_size_pc.
  rewrite entry_map_units by assumption.
  rewrite field_activity_formula. unfold Spec.place_field. cbv zeta.
  match goal with |- context [exp ?u] => assert (Hu : u <= 0) end.
  { match goal with
    | |- - (?p ^ 2 + ?q ^ 2) / ?c <= 0 =>
        pose proof (pow2_ge_0 p); pose proof (pow2_ge_0 q);
        assert (HS : 0 <= p ^ 2 + q ^ 2) by lra;
        generalize dependent (p ^ 2 + q ^ 2);
        replace c with (1 / 50) by real_field
    end.
    intros S HS. lra. }
  pose proof (exp_nonpos_le_1 _ Hu). nra.
Qed.

(** ** Reward average *)

(** For a window [m >= 1] the running average lies between the old
    prediction and the reward received, and its distance to the reward
    is the old distance times [1 - 1/m]; with [m = 0] the call fails on
    the division. *)
Theorem update_reward_running_average_between r_current reward m :
  (1 <= m ->
   exists average,
     update_reward_running_average r_current reward m = Some average
     /\ Rmin r_current reward <= average <= Rmax r_current reward
     /\ average - reward = (1 - 1 / m) * (r_current - reward))
  /\ (m = 0 -> update_reward_running_average r_current reward m = None).
Proof.
  unfold update_reward_running_average. split.
  - intros Hm. destruct (Req_dec_T m 0) as [H0|_]; [lra|].
    eexists. split; [reflexivity|].
    assert (Hl : 0 < 1 / m <= 1).
    { split; [apply Rdiv_lt_0_compat; lra|].
      apply (Rmult_le_reg_r m); [lra|]. unfold Rdiv.
      rewrite Rmult_assoc, Rinv_l by lra. lra. }
    set (l := 1 / m) in *. split; [|lra].
    unfold Rmin, Rmax. destruct (Rle_dec r_current reward); nra.
  - intros ->. destruct (Req_dec_T 0 0); [reflexivity | contradiction].
Qed.

Lemma update_reward_running_average_between_witness :
  (exists average,
      update_reward_running_average 0 1 4 = Some average
      /\ Rmin 0 1 <= average <= Rmax 0 1
      /\ average - 1 = (1 - 1 / 4) * (0 - 1))
  /\ update_reward_running_average 0 1 0 = None.
Proof.
  split.
  - apply (proj1 (update_reward_running_average_between 0 1 4)). lra.
  - apply (proj2 (update_reward_running_average_between 0 1 0)). reflexivity.
Defined.

(** ** Action cells *)

Lemma logistic_range u : 0 < 1 / (1 + exp u) < 1.
Proof.
  pose proof (exp_pos u) as He. split.
  - apply Rdiv_lt_0_compat; lra.
  - apply (Rmult_lt_reg_r (1 + exp u)); [lra|]. unfold Rdiv.
    rewrite Rmult_assoc, Rinv_l by lra. lra.
Qed.

(** When every row of the readout matrix is as long as the rate vector,
    [ac_outputs] returns one value per row, each strictly between 0 and
    1; when some row has another length the product fails. *)
Theorem ac_outputs_range weights_pc_ac place_cell_rates :
  ((forall row, In row weights_pc_ac -> length row = length place_cell_rates) ->
   exists outputs,
     ac_outputs weights_pc_ac place_cell_rates = Some outputs
     /\ length outputs = length weights_pc_ac
     /\ forall o, In o outputs -> 0 < o < 1)
  /\ ((exists row, In row weights_pc_ac /\ length row <> length place_cell_rates) ->
      ac_outputs weights_pc_ac place_cell_rates = None).
Proof.
  unfold ac_outputs. cbv zeta. split.
  - intros Hrows.
    replace (forallb _ weights_pc_ac) with true.
    + eexists. split; [reflexivity|]. split; [now rewrite length_map|].
      intros o Ho. apply in_map_iff in Ho. destruct Ho as [row [<- _]].
      apply logistic_range.
    + symmetry. apply forallb_forall. intros row Hrow.
      apply Nat.eqb_eq. now apply Hrows.
  - intros [row [Hrow Hlen]].
    destruct (forallb _ weights_pc_ac) eqn:Hall; [|reflexivity].
    rewrite forallb_forall in Hall. specialize (Hall row Hrow).
    apply Nat.eqb_eq in Hall. contradiction.
Qed.

Lemma ac_outputs_range_witness :
  (exists outputs,
      ac_outputs [[1; 2]; [0; 0]] [3; 4] = Some outputs
      /\ length outputs = length [[1; 2]; [0; 0]]
      /\ forall o, In o outputs -> 0 < o < 1)
  /\ ac_outputs [[1; 2]; [0]] [3; 4] = None.
Proof.
  split.
  - apply (proj1 (ac_outputs_range [[1; 2]; [0; 0]] [3; 4])).
    intros row [<- | [<- | []]]; reflexivity.
  - apply (proj2 (ac_outputs_range [[1; 2]; [0]] [3; 4])).
    exists [0]. split; [right; now left | discriminate].
Defined.

(** The four action-cell values of a heading are nonnegative, east minus
    west is its cosine and north minus south its sine, opposite cells
    are never both active, and the squares add up to 1. *)
Theorem theta_to_action_cell_components theta :
  let '(e, n, w, s) := theta_to_action_cell theta in
  0 <= e /\ 0 <= n /\ 0 <= w /\ 0 <= s
  /\ e - w = cos theta /\ n - s = sin theta
  /\ e * w = 0 /\ n * s = 0
  /\ e * e + n * n + w * w + s * s = 1.
Proof.
  unfold theta_to_action_cell. cbv zeta.
  pose proof (sin2_cos2 theta) as H. unfold Rsqr in H.
  destruct (Rge_dec (sin theta) 0) as [Hs|Hs];
    destruct (Rge_dec (cos theta) 0) as [Hc|Hc];
    unfold Rge in *; repeat split; try lra; try nra.
Qed.

(** ** Headings *)

Lemma cos_shift_2PI x : cos (x + 2 * PI) = cos x /\ sin (x + 2 * PI) = sin x.
Proof.
  rewrite cos_plus, sin_plus, cos_2PI, sin_2PI. split; ring.
Qed.

Lemma cos_unshift_2PI x : cos (x - 2 * PI) = cos x /\ sin (x - 2 * PI) = sin x.
Proof.
  rewrite cos_minus, sin_minus, cos_2PI, sin_2PI. split; ring.
Qed.

Lemma omega_of_range diff :
  - (2 * PI) <= diff <= 2 * PI ->
  - PI <= omega_of 1 diff <= PI
  /\ cos (omega_of 1 diff) = cos diff
  /\ sin (omega_of 1 diff) = sin diff.
Proof.
  intros Hd. pose proof PI_RGT_0 as Hpi. unfold omega_of.
  rewrite !Rmult_1_l.
  destruct (Rlt_dec (Rabs diff) PI) as [Hlt|Hge].
  - unfold Rabs in Hlt. destruct (Rcase_abs diff); repeat split; lra.
  - assert (Habs : PI <= Rabs diff) by lra.
    unfold Rabs in Habs.
    destruct (Rgt_dec diff 0) as [Hpos|Hneg]; unfold Rgt in *.
    + destruct (cos_unshift_2PI diff) as [-> ->].
      destruct (Rcase_abs diff); repeat split; lra.
    + destruct (cos_shift_2PI diff) as [-> ->].
      destruct (Rcase_abs diff); repeat split; lra.
Qed.

(** With the sonar at 0.03 or more and both angles in [0, 2 pi],
    [miro_controller] publishes the forward speed 0.2 and a turn rate in
    [-pi, pi] that points the same way as [target_theta - current_theta]
    (the shorter way round), and leaves [self.target_theta] alone; with
    the sonar below 0.03 it avoids the wall and sets [self.target_theta]
    to the present heading. *)
Theorem miro_controller_turn sonar_val self_target_theta body_theta
        target_theta current_theta :
  (0.03 <= sonar_val ->
   0 <= target_theta <= 2 * PI -> 0 <= current_theta <= 2 * PI ->
   exists omega,
     miro_controller sonar_val self_target_theta body_theta target_theta current_theta
     = (Publish 0.2 omega, self_target_theta)
     /\ - PI <= omega <= PI
     /\ cos omega = cos (target_theta - current_theta)
     /\ sin omega = sin (target_theta - current_theta))
  /\ (sonar_val < 0.03 ->
      miro_controller sonar_val self_target_theta body_theta target_theta current_theta
      = (Avoid_wall, body_theta)).
Proof.
  unfold miro_controller. split.
  - intros Hs Ht Hc. destruct (Rlt_dec sonar_val 0.03); [lra|].
    eexists. split; [reflexivity|]. apply omega_of_range. lra.
  - intros Hs. destruct (Rlt_dec sonar_val 0.03); [reflexivity | contradiction].
Qed.

Lemma miro_controller_turn_witness :
  (exists omega,
      miro_controller 1 0 0 0 PI = (Publish 0.2 omega, 0)
      /\ - PI <= omega <= PI
      /\ cos omega = cos (0 - PI)
      /\ sin omega = sin (0 - PI))
  /\ miro_controller 0 0 1 0 PI = (Avoid_wall, 1).
Proof.
  pose proof PI_RGT_0 as Hpi. split.
  - apply (proj1 (miro_controller_turn 1 0 0 0 PI)); lra.
  - apply (proj2 (miro_controller_turn 0 0 1 0 PI)). lra.
Defined.

(** A heading received in [-pi, pi] is stored in [0, 2 pi) as the same
    direction, and the two coordinates are stored as received. *)
Theorem callback_body_pose_heading msg_x msg_y msg_theta :
  - PI <= msg_theta <= PI ->
  exists theta,
    callback_body_pose msg_x msg_y msg_theta = (msg_x, msg_y, theta)
    /\ 0 <= theta < 2 * PI
    /\ cos theta = cos msg_theta /\ sin theta = sin msg_theta.
Proof.
  intros Hm. pose proof PI_RGT_0 as Hpi. unfold callback_body_pose.
  destruct (Rlt_dec msg_theta 0).
  - eexists. split; [reflexivity|].
    destruct (cos_shift_2PI msg_theta) as [-> ->]. repeat split; lra.
  - eexists. split; [reflexivity|]. repeat split; lra.
Qed.

Lemma callback_body_pose_heading_witness :
  exists theta,
    callback_body_pose 1 2 (- PI) = (1, 2, theta)
    /\ 0 <= theta < 2 * PI
    /\ cos theta = cos (- PI) /\ sin theta = sin (- PI).
Proof.
  apply callback_body_pose_heading. pose proof PI_RGT_0. lra.
Defined.

Lemma py_mod_range x m : 0 < m -> 0 <= py_mod x m < m.
Proof.
  intros Hm. unfold py_mod.
  destruct (base_Int_part (x / m)) as [Hlo Hhi].
  set (k := IZR (Int_part (x / m))) in *.
  assert (Hx : x = x / m * m) by (field; lra).
  set (q := x / m) in *. rewrite Hx. nra.
Qed.

(** Once more than 2 s have passed since the last change, [random_walk]
    stamps the present time and returns a new target in [0, 2 pi) that
    is [current_theta + 2 * rand - 1] up to whole turns; otherwise it
    returns the target it was given.  Called twice in one iteration, as
    [main] does, the second call changes nothing: it returns the target
    the first call chose. *)
Theorem random_walk_target t0 t_last current_theta current_target_theta rand :
  (2 < t0 - t_last ->
   exists new_theta k,
     random_walk t0 t_last current_theta current_target_theta rand = (t0, new_theta)
     /\ 0 <= new_theta < 2 * PI
     /\ new_theta = current_theta + 2 * rand - 1 - 2 * PI * IZR k)
  /\ (t0 - t_last <= 2 ->
      random_walk t0 t_last current_theta current_target_theta rand
      = (t_last, current_target_theta))
  /\ (forall rand',
        let first := random_walk t0 t_last current_theta current_target_theta rand in
        random_walk t0 (fst first) current_theta (snd first) rand' = first).
Proof.
  pose proof PI_RGT_0 as Hpi. unfold random_walk. split; [|split].
  - intros Ht. destruct (Rgt_dec (t0 - t_last) 2) as [_|Hn]; [|unfold Rgt in Hn; lra].
    do 2 eexists. split; [reflexivity|].
    split; [apply py_mod_range; lra | reflexivity].
  - intros Ht. destruct (Rgt_dec (t0 - t_last) 2) as [Hgt|_]; [unfold Rgt in Hgt; lra|].
    reflexivity.
  - intros rand'. cbv zeta.
    destruct (Rgt_dec (t0 - t_last) 2) as [Hgt|Hle]; cbn [fst snd].
    + destruct (Rgt_dec (t0 - t0) 2) as [Hgt'|_]; [unfold Rgt in Hgt'; lra|].
      reflexivity.
    + destruct (Rgt_dec (t0 - t_last) 2); [contradiction | reflexivity].
Qed.

Lemma random_walk_target_witness :
  (exists new_theta k,
      random_walk 3 0 1 0 0.5 = (3, new_theta)
      /\ 0 <= new_theta < 2 * PI
      /\ new_theta = 1 + 2 * 0.5 - 1 - 2 * PI * IZR k)
  /\ random_walk 1 0 1 0 0.5 = (0, 0).
Proof.
  split.
  - apply (proj1 (random_walk_target 3 0 1 0 0.5)). lra.
  - apply (proj1 (proj2 (random_walk_target 1 0 1 0 0.5))). lra.
Defined.

Lemma decode_heading theta :
  cos theta <> 0 ->
  action_cell_to_theta (theta_to_action_cell theta)
  = if Rge_dec (atan (tan theta)) 0 then Some (atan (tan theta))
    else Some (atan (tan theta) + 2 * PI).
Proof.
  intros Hc. unfold theta_to_action_cell, action_cell_to_theta. cbv zeta.
  assert (Hns : forall n s, n - s = sin theta -> forall e w, e - w = cos theta ->
            (if Req_dec_T (e - w) 0 then None
             else if Rge_dec (atan ((n - s) / (e - w))) 0
                  then Some (atan ((n - s) / (e - w)))
                  else Some (atan ((n - s) / (e - w)) + 2 * PI))
            = if Rge_dec (atan (tan theta)) 0 then Some (atan (tan theta))
              else Some (atan (tan theta) + 2 * PI)).
  { intros n s -> e w ->. destruct (Req_dec_T (cos theta) 0); [contradiction|].
    reflexivity. }
  destruct (Rge_dec (sin theta) 0); destruct (Rge_dec (cos theta) 0);
    cbv beta iota; apply Hns; lra.
Qed.

Lemma atan_tan_second theta :
  PI / 2 < theta < 3 * (PI / 2) -> atan (tan theta) = theta - PI.
Proof.
  intros Ht.
  assert (Hc : cos (theta - PI) <> 0).
  { apply Rgt_not_eq. apply cos_gt_0; lra. }
  assert (Htan : tan theta = tan (theta - PI)).
  { replace theta with (theta - PI + PI) at 1 by ring.
    unfold tan. rewrite neg_sin, neg_cos. field. assumption. }
  rewrite Htan. apply atan_tan. lra.
Qed.

Lemma atan_tan_fourth theta :
  3 * (PI / 2) < theta < 5 * (PI / 2) -> atan (tan theta) = theta - 2 * PI.
Proof.
  intros Ht.
  assert (Htan : tan theta = tan (theta - 2 * PI)).
  { unfold tan. destruct (cos_unshift_2PI theta) as [-> ->]. reflexivity. }
  rewrite Htan. apply atan_tan. lra.
Qed.

(** Decoding the action cells of a heading gives the heading back in
    the quadrants where its cosine is positive, [0, pi/2) and
    (3 pi/2, 2 pi); where the cosine is negative the decoded angle is
    off by half a turn: [theta + pi] on (pi/2, pi) and [theta - pi] on
    [pi, 3 pi/2). *)
Theorem heading_round_trip theta :
  (0 <= theta < PI / 2 \/ 3 * (PI / 2) < theta < 2 * PI ->
   action_cell_to_theta (theta_to_action_cell theta) = Some theta)
  /\ (PI / 2 < theta < PI ->
      action_cell_to_theta (theta_to_action_cell theta) = Some (theta + PI))
  /\ (PI <= theta < 3 * (PI / 2) ->
      action_cell_to_theta (theta_to_action_cell theta) = Some (theta - PI)).
Proof.
  pose proof PI_RGT_0 as Hpi. split; [|split].
  - intros [Ht | Ht].
    + rewrite decode_heading by (apply Rgt_not_eq; apply cos_gt_0; lra).
      rewrite atan_tan by lra.
      destruct (Rge_dec theta 0) as [_|Hn]; [reflexivity|]. unfold Rge in Hn. lra.
    + assert (Hc : cos theta <> 0).
      { destruct (cos_unshift_2PI theta) as [<- _].
        apply Rgt_not_eq. apply cos_gt_0; lra. }
      rewrite decode_heading by assumption.
      rewrite atan_tan_fourth by lra.
      destruct (Rge_dec (theta - 2 * PI) 0) as [Hge|_]; [unfold Rge in Hge; lra|].
      f_equal. ring.
  - intros Ht.
    rewrite decode_heading by (apply Rlt_not_eq; apply cos_lt_0; lra).
    rewrite atan_tan_second by lra.
    destruct (Rge_dec (theta - PI) 0) as [Hge|_]; [unfold Rge in Hge; lra|].
    f_equal. ring.
  - intros Ht.
    rewrite decode_heading by (apply Rlt_not_eq; apply cos_lt_0; lra).
    rewrite atan_tan_second by lra.
    destruct (Rge_dec (theta - PI) 0) as [_|Hn]; [reflexivity|]. unfold Rge in Hn. lra.
Qed.

Lemma heading_round_trip_witness :
  action_cell_to_theta (theta_to_action_cell 0) = Some 0
  /\ action_cell_to_theta (theta_to_action_cell (3 * (PI / 4)))
     = Some (3 * (PI / 4) + PI)
  /\ action_cell_to_theta (theta_to_action_cell PI) = Some (PI - PI).
Proof.
  pose proof PI_RGT_0 as Hpi. split; [|split].
  - apply (proj1 (heading_round_trip 0)). left. lra.
  - apply (proj1 (proj2 (heading_round_trip (3 * (PI / 4))))). lra.
  - apply (proj2 (proj2 (heading_round_trip PI))). lra.
Defined.

(** ** Heading home *)

Lemma theta_miro_home_direction dx dy :
  dx <> 0 ->
  0 <= theta_miro_home dx dy < 2 * PI
  /\ dx * sin (theta_miro_home dx dy) = dy * cos (theta_miro_home dx dy)
  /\ 0 < dx * cos (theta_miro_home dx dy).
Proof.
  intros Hdx. pose proof PI_RGT_0 as Hpi. unfold theta_miro_home. cbv zeta.
  pose proof (atan_bound (dy / dx)) as Hb.
  assert (Hcos : 0 < cos (atan (dy / dx))) by (apply cos_gt_0; lra).
  assert (Hsin : dx * sin (atan (dy / dx)) = dy * cos (atan (dy / dx))).
  { pose proof (tan_atan (dy / dx)) as Ht. unfold tan in Ht.
    assert (Hs : sin (atan (dy / dx)) = dy / dx * cos (atan (dy / dx))).
    { rewrite <- Ht at 2. field. lra. }
    rewrite Hs. field. assumption. }
  set (a := atan (dy / dx)) in *.
  destruct (Rgt_dec dx 0) as [Hpos|Hnpos].
  - unfold Rgt in Hpos. destruct (Rlt_dec dy 0) as [Hneg|Hnneg].
    + assert (Ha : a < 0).
      { unfold a. rewrite <- atan_0. apply atan_increasing.
        pose proof (Rinv_0_lt_compat dx Hpos). unfold Rdiv. nra. }
      destruct (cos_shift_2PI a) as [-> ->]. repeat split; [lra | lra | assumption | nra].
    + destruct (Rlt_dec dx 0); [lra|].
      assert (Ha : 0 <= a).
      { unfold a. rewrite <- atan_0.
        assert (Hq : 0 <= dy / dx)
          by (pose proof (Rinv_0_lt_compat dx Hpos); unfold Rdiv; nra).
        destruct Hq as [Hq | <-]; [left; now apply atan_increasing | right; reflexivity]. }
      repeat split; [lra | lra | assumption | nra].
  - destruct (Rlt_dec dx 0) as [Hneg|Hn]; [|unfold Rgt in Hnpos; lra].
    rewrite neg_sin, neg_cos. repeat split; [lra | lra | lra | nra].
Qed.

(** One pass of the homing loop publishes a speed in (0, 0.2] that
    never exceeds the distance to go, and, for a heading in [0, 2 pi], a
    turn rate in [-pi, pi] that turns the robot onto the line to the
    target: after turning by [omega] its heading points along
    [(diff_x, diff_y)].  A [diff_x] of exactly 0 is replaced by one
    micrometre first, so the distance computed is never 0. *)
Theorem homing_pass_command target_x target_y target_theta
        current_x current_y current_theta :
  0 <= current_theta <= 2 * PI ->
  exists diff_x distance vel omega,
    homing_pass (target_x, target_y, target_theta) (current_x, current_y, current_theta)
    = (distance, vel, omega)
    /\ (target_x <> current_x /\ diff_x = target_x - current_x
        \/ target_x = current_x /\ diff_x = 0.000001)
    /\ distance = sqrt (diff_x ^ 2 + (target_y - current_y) ^ 2)
    /\ 0 < distance
    /\ 0 < vel <= 0.2 /\ vel <= distance
    /\ - PI <= omega <= PI
    /\ diff_x * sin (current_theta + omega)
       = (target_y - current_y) * cos (current_theta + omega)
    /\ 0 < diff_x * cos (current_theta + omega).
Proof.
  intros Hcur. pose proof PI_RGT_0 as Hpi.
  unfold homing_pass. cbv zeta.
  set (dy := target_y - current_y).
  set (dx := if Req_dec_T (target_x - current_x) 0
             then target_x - current_x + 0.000001 else target_x - current_x).
  assert (Hdx : (target_x <> current_x /\ dx = target_x - current_x
                 \/ target_x = current_x /\ dx = 0.000001) /\ dx <> 0).
  { unfold dx. destruct (Req_dec_T (target_x - current_x) 0) as [H0|Hn].
    - split; [right; split; lra | lra].
    - split; [left; split; [lra | reflexivity] | assumption]. }
  destruct Hdx as [Hcase Hdx].
  destruct (theta_miro_home_direction dx dy Hdx) as (Hrange & Hdir & Hsign).
  set (home := theta_miro_home dx dy) in *.
  destruct (omega_of_range (home - current_theta)) as (Hom & Hc & Hs); [lra|].
  set (omega := omega_of 1 (home - current_theta)) in *.
  assert (Hdist : 0 < sqrt (dx ^ 2 + dy ^ 2)).
  { apply sqrt_lt_R0. pose proof (pow2_ge_0 dy).
    assert (0 < dx ^ 2) by (simpl; nra). lra. }
  assert (Hsum : sin (current_theta + omega) = sin home
                 /\ cos (current_theta + omega) = cos home).
  { rewrite sin_plus, cos_plus, Hc, Hs, <- sin_plus, <- cos_plus.
    split; f_equal; ring. }
  destruct Hsum as [Hsin Hcos].
  exists dx, (sqrt (dx ^ 2 + dy ^ 2)), (Rmin (sqrt (dx ^ 2 + dy ^ 2)) 0.2), omega.
  split; [reflexivity|]. split; [exact Hcase|]. split; [reflexivity|].
  split; [exact Hdist|].
  split; [unfold Rmin; destruct (Rle_dec _ 0.2); lra|].
  split; [unfold Rmin; destruct (Rle_dec _ 0.2); lra|].
  split; [exact Hom|].
  rewrite Hsin, Hcos. split; assumption.
Qed.

Lemma homing_pass_command_witness :
  exists diff_x distance vel omega,
    homing_pass (-0.7, 0, 0) (0, 0, 0) = (distance, vel, omega)
    /\ ((-0.7) <> 0 /\ diff_x = -0.7 - 0 \/ -0.7 = 0 /\ diff_x = 0.000001)
    /\ distance = sqrt (diff_x ^ 2 + (0 - 0) ^ 2)
    /\ 0 < distance
    /\ 0 < vel <= 0.2 /\ vel <= distance
    /\ - PI <= omega <= PI
    /\ diff_x * sin (0 + omega) = (0 - 0) * cos (0 + omega)
    /\ 0 < diff_x * cos (0 + omega).
Proof.
  apply (homing_pass_command (-0.7) 0 0 0 0 0). pose proof PI_RGT_0. lra.
Defined.

(** ** Explore iterations *)

(** An explore iteration always drives the network at the full
    amplitude 50, whether or not the pose changed since the last
    iteration: the movement test of the loop is overwritten before it is
    used.  The drive stored is the place field of the pose just read. *)
Theorem explore_drive_ignores_movement st body_pose :
  well_formed st ->
  exists st',
    tick st 0 body_pose = Return st'
    /\ I_place st'
       = compute_place_cell_activities (fst body_pose) (snd body_pose) 0 true
    /\ amplitude 0 true = 50
    /\ coords_prev st' = body_pose
    /\ forall st2, tick st' 0 body_pose = Return st2 -> I_place st2 = I_place st'.
Proof.
  intros Hst. exists (next_state st 0 body_pose).
  split; [now apply tick_next_state|].
  split; [unfold next_state; cbn [I_place negb Z.eqb]; reflexivity|].
  split; [unfold amplitude; simpl; reflexivity|].
  split; [unfold next_state; cbn [coords_prev]; reflexivity|].
  intros st2 H2.
  rewrite tick_next_state in H2 by now apply next_state_well_formed.
  injection H2 as <-. unfold next_state. cbn [I_place negb Z.eqb]. reflexivity.
Qed.

Lemma explore_drive_ignores_movement_witness :
  exists st',
    tick initial_state 0 (-0.7, 0) = Return st'
    /\ I_place st' = compute_place_cell_activities (fst (-0.7, 0)) (snd (-0.7, 0)) 0 true
    /\ amplitude 0 true = 50
    /\ coords_prev st' = (-0.7, 0)
    /\ forall st2, tick st' 0 (-0.7, 0) = Return st2 -> I_place st2 = I_place st'.
Proof.
  apply (explore_drive_ignores_movement initial_state (-0.7, 0)).
  apply initial_state_well_formed.
Defined.

(** ** Global inhibition *)

Lemma fold_add_map (f : Z -> R) xs s :
  fold_left (fun s i => s + f i) xs s = fold_left Rplus (map f xs) s.
Proof.
  revert s. induction xs as [|x xs IH]; intros s; simpl; [reflexivity|]. apply IH.
Qed.

Lemma sum_rates_py_sum r : sized r -> sum_rates r = py_sum r.
Proof.
  intros Hr. unfold sum_rates, py_sum.
  rewrite (fold_add_map (entry r)).
  f_equal. unfold entry.
  rewrite (sized_map_range (fun x => x) r Hr). apply map_id.
Qed.

(** On an array of 100 rates [update_I_inh] with [delta_t = 0.01] and
    [w_inh = 0.1] moves the inhibition a fifth of the way to
    [tau_inh * w_inh * sum(rates)]: the distance to that level shrinks
    by the factor 0.8 in each step. *)
Theorem update_I_inh_relaxes I r :
  sized r ->
  exists I',
    update_I_inh I delta_t w_inh r = Return I'
    /\ I' - 0.05 * w_inh * py_sum r = 0.8 * (I - 0.05 * w_inh * py_sum r).
Proof.
  intros Hr. eexists. split; [now apply update_I_inh_sized|].
  rewrite sum_rates_py_sum by assumption. unfold w_inh, delta_t. lra.
Qed.

Lemma update_I_inh_relaxes_witness :
  exists I',
    update_I_inh 1 delta_t w_inh (np_ones 100) = Return I'
    /\ I' - 0.05 * w_inh * py_sum (np_ones 100)
       = 0.8 * (1 - 0.05 * w_inh * py_sum (np_ones 100)).
Proof. apply update_I_inh_relaxes. reflexivity. Defined.
